(** * Rainbow DQN agent: [gym_loop/agents/pytorch_rainbow_dqn.py]

    A shallow embedding of [PytorchRainbowDqn].  Python floats and torch
    float tensors are read as exact rationals ([Qc], canonical fractions
    with Leibniz equality), so rounding, infinities and NaN are outside
    the model.  Tensors are lists: a vector is a [list Qc], a matrix a
    list of rows.  A Python exception is a [Raise] in the [result]
    monad. *)

From Stdlib Require Import ZArith QArith Qcanon Qround.
From stdpp Require Import base option list gmap strings.

Open Scope Qc_scope.

(** ** Exceptions *)

Inductive exn : Set :=
  | ZeroDivisionError
  | IndexError
  | RuntimeError
  | AttributeError
  | TypeError
  | NotImplementedError.

Inductive result (A : Type) : Type :=
  | Ok (a : A)
  | Raise (e : exn).
Arguments Ok {A} a.
Arguments Raise {A} e.

#[global] Instance Qc_eq : EqDecision Qc := Qc_eq_dec.
#[global] Instance exn_eq : EqDecision exn.
Proof. solve_decision. Defined.
#[global] Instance result_eq {A} `{EqDecision A} : EqDecision (result A).
Proof. solve_decision. Defined.

#[global] Instance result_ret : MRet result := λ A a, Ok a.
#[global] Instance result_bind : MBind result := λ A B f m,
  match m with
  | Ok a => f a
  | Raise e => Raise e
  end.

(** [l[i]] on a Python list or along the first axis of a tensor. *)
Definition getitem {A} (l : list A) (i : nat) : result A :=
  match l !! i with
  | Some x => Ok x
  | None => Raise IndexError
  end.

#[global] Instance result_fmap : FMap result := λ A B f m,
  match m with
  | Ok a => Ok (f a)
  | Raise e => Raise e
  end.

(** Run [f] over the rows [i, i+1, ..] of [l]; the first exception wins. *)
Fixpoint for_rows {A B} (f : nat → A → result B) (i : nat) (l : list A)
  : result (list B) :=
  match l with
  | [] => Ok []
  | x :: l' =>
      y ← f i x;
      ys ← for_rows f (S i) l';
      Ok (y :: ys)
  end.

(** An operation on two tensors of one shape, entry by entry (an axis of
    size one is not stretched: the networks and the stores are built with
    the agent's own [atom_size] and [batch_size]). *)
Fixpoint zip_strict {A B C} (f : A → B → result C) (x : list A) (y : list B)
  : result (list C) :=
  match x, y with
  | [], [] => Ok []
  | a :: x', b :: y' =>
      c ← f a b;
      r ← zip_strict f x' y';
      Ok (c :: r)
  | _, _ => Raise RuntimeError
  end.

(** ** Scalars *)

Definition of_Z (z : Z) : Qc := Q2Qc (inject_Z z).
Definition of_nat (n : nat) : Qc := of_Z (Z.of_nat n).

(** Python's builtin [max(a, b)]: the first argument unless the second is
    strictly greater. *)
Definition py_max (a b : Qc) : Qc := if Qclt_le_dec a b then b else a.

(** [x.clamp(min=lo, max=hi)], that is [min(max(x, lo), hi)]. *)
Definition clamp (lo hi x : Qc) : Qc :=
  let y := if Qclt_le_dec x lo then lo else x in
  if Qclt_le_dec hi y then hi else y.

Definition floor (x : Qc) : Z := Qfloor x.
Definition ceil (x : Qc) : Z := Qceiling x.

(** ** Tensors *)

(** [t.sum()] *)
Definition tensor_sum (l : list Qc) : Qc := foldr Qcplus 0 l.

(** [torch.linspace(start, end, steps)] *)
Definition linspace (start end_ : Qc) (steps : nat) : list Qc :=
  (λ i, start + of_nat i * ((end_ - start) / of_nat (steps - 1))) <$> seq 0 steps.

(** [torch.zeros(n)] *)
Definition zeros (n : nat) : list Qc := replicate n 0.

(** [x * y] and [x + y] on vectors of one shape. *)
Definition mul (x y : list Qc) : result (list Qc) :=
  zip_strict (λ a b, Ok (a * b)) x y.
Definition add (x y : list Qc) : result (list Qc) :=
  zip_strict (λ a b, Ok (a + b)) x y.

(** [t.mean()] over all entries. *)
Definition mean (l : list Qc) : Qc := tensor_sum l / of_nat (length l).

(** [self.index_add_(0, index, source)] on a flat buffer: for every position
    [k], [self[index[k]] += source[k]]; an index outside the buffer raises. *)
Fixpoint index_add_ (self : list Qc) (index : list Z) (source : list Qc)
  : result (list Qc) :=
  match index, source with
  | [], [] => Ok self
  | i :: index', s :: source' =>
      if decide (0 ≤ i < Z.of_nat (length self))%Z
      then index_add_ (alter (λ x, x + s) (Z.to_nat i) self) index' source'
      else Raise IndexError
  | _, _ => Raise RuntimeError
  end.

(** [t.view(-1)] and [t.sum(1)] of a matrix. *)
Definition view_flat (m : list (list Qc)) : list Qc := concat m.
Definition row_sums (m : list (list Qc)) : list Qc :=
  (tensor_sum : list Qc → Qc) <$> m.

(** [t.argmax()] of a vector: the index of the first maximal entry. *)
Fixpoint argmax_from (best_i : nat) (best : Qc) (i : nat) (l : list Qc) : nat :=
  match l with
  | [] => best_i
  | x :: l' =>
      if Qclt_le_dec best x
      then argmax_from i x (S i) l'
      else argmax_from best_i best (S i) l'
  end.

Definition argmax (l : list Qc) : result nat :=
  match l with
  | [] => Raise RuntimeError
  | x :: l' => Ok (argmax_from 0 x 1 l')
  end.

(** ** The categorical projection (lines 179-201 of [_compute_dqn_loss])

    [project] is the part of the [torch.no_grad()] block that follows the
    fetch of the target distribution [next_dist] (one row of masses per
    sample); [delta_z] is line 171. *)

Section Projection.
Variables (v_min v_max : Qc) (atom_size batch_size : nat).
Variable support : list Qc.

(** [delta_z = float(self.v_max - self.v_min) / (self.atom_size - 1)] *)
Definition delta_z : result Qc :=
  if decide (atom_size = 1)%nat then Raise ZeroDivisionError
  else Ok ((v_max - v_min) / of_Z (Z.of_nat atom_size - 1)).

(** One row of [b]: the fractional grid positions of a sample. *)
Definition b_row (dz gamma reward done : Qc) : list Qc :=
  (λ z, (clamp v_min v_max (reward + (1 - done) * gamma * z) - v_min) / dz)
    <$> support.

(** [offset]: row [i] holds [i * atom_size] in every column. *)
Definition offset (i : nat) : Z := Z.of_nat (i * atom_size).

(** Row [i] of [(l + offset)] and of [(u + offset)], and a row of
    [next_dist * (u.float() - b)] and of [next_dist * (b - l.float())]. *)
Definition lower_index (i : nat) (b : list Qc) : list Z :=
  (λ x, floor x + offset i)%Z <$> b.
Definition upper_index (i : nat) (b : list Qc) : list Z :=
  (λ x, ceil x + offset i)%Z <$> b.
Definition lower_source (nd b : list Qc) : result (list Qc) :=
  mul nd ((λ x, of_Z (ceil x) - x) <$> b).
Definition upper_source (nd b : list Qc) : result (list Qc) :=
  mul nd ((λ x, x - of_Z (floor x)) <$> b).

Definition project (dz gamma : Qc) (reward done : list Qc)
    (next_dist : list (list Qc)) : result (list (list Qc)) :=
  (* reward and done are columns of one batch, and offset has a row per
     index of range(batch_size) *)
  b ← zip_strict (λ r d, Ok (b_row dz gamma r d)) reward done;
  if negb (bool_decide (length b = batch_size)) then Raise RuntimeError
  else
    let l := concat (imap lower_index b) in
    let u := concat (imap upper_index b) in
    src_l ← zip_strict lower_source next_dist b;
    src_u ← zip_strict upper_source next_dist b;
    let proj_dist := zeros (length (view_flat next_dist)) in
    proj_dist ← index_add_ proj_dist l (view_flat src_l);
    proj_dist ← index_add_ proj_dist u (view_flat src_u);
    (* proj_dist keeps the shape next_dist.size() it was created with *)
    Ok (reshape (length <$> next_dist) proj_dist).
End Projection.

(** *** Bookkeeping for the flat buffer *)

(** The sum of the entries [lo, lo + n) of a flat buffer, and what
    [index_add_] adds to them. *)
Definition window_sum (lo n : nat) (flat : list Qc) : Qc :=
  tensor_sum (take n (drop lo flat)).

Fixpoint added_in (lo n : nat) (index : list Z) (source : list Qc) : Qc :=
  match index, source with
  | i :: index', s :: source' =>
      (if decide (Z.of_nat lo ≤ i < Z.of_nat lo + Z.of_nat n)%Z then s else 0)
      + added_in lo n index' source'
  | _, _ => 0
  end.

(** Row [k] of an index tensor [g(b) + offset]. *)
Definition grid_index (g : Qc → Z) (n k : nat) (b : list Qc) : list Z :=
  (λ x, g x + offset n k)%Z <$> b.

(** A grid position whose floor and ceiling are indices of the support. *)
Definition in_grid (atom_size : nat) (x : Qc) : Prop :=
  (0 ≤ floor x)%Z ∧ (ceil x < Z.of_nat atom_size)%Z.

(** ** Collaborators

    The replay stores, the networks, the optimizer and autograd live outside
    this file of the repository; they enter as the operations the agent
    calls on them.  A store or a network carries its own random source, so a
    draw and a noise reset are functions of its state. *)

(** A parameter tensor (flattened) with its [.grad]. *)
Record Param := {
  data : list Qc;
  grad : option (list Qc);
}.

(** The dict a store hands out: one column per key.  Batches of the n-step
    store are only read at the first five keys. *)
Record Samples (ndarray : Type) := {
  obs : ndarray;
  next_obs : ndarray;
  acts : list nat;
  rews : list Qc;
  done : list Qc;
  weights : list Qc;
  indices : list nat;
}.
Arguments obs {ndarray} s.
Arguments next_obs {ndarray} s.
Arguments acts {ndarray} s.
Arguments rews {ndarray} s.
Arguments done {ndarray} s.
Arguments weights {ndarray} s.
Arguments indices {ndarray} s.

(** A network object.  Its methods read the parameter data and the noise
    buffers; [distribution] is the capability a policy may lack. *)
Record Net (ndarray Noise : Type) := {
  named_parameters : list (string * Param);
  noise : Noise;
  forward : list (list Qc) → Noise → ndarray → list (list Qc);
  act_ : list (list Qc) → Noise → ndarray → list Qc;
  distribution :
    option (list (list Qc) → Noise → ndarray → list (list (list Qc)));
  reset_noise_ : Noise → Noise;
}.
Arguments named_parameters {ndarray Noise} n.
Arguments noise {ndarray Noise} n.
Arguments forward {ndarray Noise} n.
Arguments act_ {ndarray Noise} n.
Arguments distribution {ndarray Noise} n.
Arguments reset_noise_ {ndarray Noise} n.

Class Collaborators := {
  ndarray : Type;
  Noise : Type;
  PrioritizedReplayBuffer : Type;
  ReplayBuffer : Type;
  Adam : Type;
  (* torch.log, torch.sqrt on scalars *)
  log : Qc → Qc;
  sqrt : Qc → Qc;
  (* PrioritizedReplayBuffer(obs_dim, size, batch_size, alpha, gamma=..) *)
  new_memory : nat → nat → nat → Qc → Qc → PrioritizedReplayBuffer;
  len : PrioritizedReplayBuffer → nat;
  store : PrioritizedReplayBuffer →
          ndarray * nat * Qc * ndarray * Qc → PrioritizedReplayBuffer;
  sample_batch : PrioritizedReplayBuffer → Qc → Samples ndarray;
  update_priorities :
    PrioritizedReplayBuffer → list nat → list Qc → PrioritizedReplayBuffer;
  (* ReplayBuffer(obs_dim, size, batch_size, n_step=.., gamma=..) *)
  new_memory_n : nat → nat → nat → nat → Qc → ReplayBuffer;
  store_n : ReplayBuffer → ndarray * nat * Qc * ndarray * Qc →
            ReplayBuffer * option (ndarray * nat * Qc * ndarray * Qc);
  sample_batch_from_idxs : ReplayBuffer → list nat → Samples ndarray;
  (* CategoricalNet(obs_dim, action_dim, atom_size=.., support=..) *)
  CategoricalNet : nat → nat → nat → list Qc → Net ndarray Noise;
  (* optim.Adam(parameters), loss.backward(), clip_grad_norm_, step() *)
  new_optimizer : list Param → Adam;
  backward : (list (list Qc) → result Qc) → list (list Qc) →
             list (option (list Qc));
  clip_grad_norm_ : list (option (list Qc)) → Qc → list (option (list Qc));
  step : Adam → list Param → Adam * list (list Qc);
}.

(** ** The agent *)

(** Modelled from the spec: the attributes [BaseAgent.__init__] sets from the
    construction parameters (the configuration record of the external
    interfaces), with the dimensions it reads off the observation and action
    spaces and the policy class of the policy descriptor. *)
Record Params `{Collaborators} := {
  obs_dim : nat;
  action_dim : nat;
  memory_size : nat;
  batch_size : nat;
  gamma : Qc;
  tau : Qc;
  buffer_alpha : Qc;
  buffer_beta_min : Qc;
  buffer_beta_max : Qc;
  buffer_beta_decay : Qc;
  prior_eps : Qc;
  atom_size : nat;
  n_step : nat;
  v_min : Qc;
  v_max : Qc;
  Policy : nat → nat → nat → list Qc → Net ndarray Noise;
}.

Record Agent `{Collaborators} := {
  params : Params;
  memory : PrioritizedReplayBuffer;
  memory_n : ReplayBuffer;
  beta : Qc;
  support : list Qc;
  dqn : Net ndarray Noise;
  dqn_target : Net ndarray Noise;
  optimizer : Adam;
  loss_per_batch : Qc;
  episode_step : nat;
  is_test : bool;
}.

Section Agent.
Context `{Collaborators}.

Definition parameters (n : Net ndarray Noise) : list (list Qc) :=
  (data ∘ snd) <$> named_parameters n.

Definition set_parameters (n : Net ndarray Noise)
    (ps : list (string * Param)) : Net ndarray Noise :=
  {| named_parameters := ps; noise := noise n; forward := forward n;
     act_ := act_ n; distribution := distribution n;
     reset_noise_ := reset_noise_ n |}.

(** [n.reset_noise()] *)
Definition reset_noise (n : Net ndarray Noise) : Net ndarray Noise :=
  {| named_parameters := named_parameters n;
     noise := reset_noise_ n (noise n); forward := forward n;
     act_ := act_ n; distribution := distribution n;
     reset_noise_ := reset_noise_ n |}.

(** [n.load_state_dict(state)]: the entries of [state] replace the data of
    the parameters of the same name; the names and shapes must agree. *)
Definition load_state_dict (n : Net ndarray Noise)
    (state : list (string * Param)) : result (Net ndarray Noise) :=
  ps ← zip_strict
         (λ '(name, p) '(name', q),
            if bool_decide (name = name' ∧ length (data p) = length (data q))
            then Ok (name, {| data := data q; grad := grad p |})
            else Raise RuntimeError)
         (named_parameters n) state;
  Ok (set_parameters n ps).

Definition __init__ (p : Params) : result Agent :=
  let memory := new_memory (obs_dim p) (memory_size p) (batch_size p)
                  (buffer_alpha p) (gamma p) in
  let memory_n := new_memory_n (obs_dim p) (memory_size p) (batch_size p)
                    (n_step p) (gamma p) in
  let beta := buffer_beta_min p in
  let support := linspace (v_min p) (v_max p) (atom_size p) in
  let dqn := Policy p (obs_dim p) (action_dim p) (atom_size p) support in
  if distribution dqn is None then Raise NotImplementedError
  else
    dqn_target ← load_state_dict
      (CategoricalNet (obs_dim p) (action_dim p) (atom_size p) support)
      (named_parameters dqn);
    Ok {| params := p; memory := memory; memory_n := memory_n;
          beta := beta; support := support;
          dqn := dqn; dqn_target := dqn_target;
          optimizer := new_optimizer (snd <$> named_parameters dqn);
          loss_per_batch := 0; episode_step := 0; is_test := false |}.

(** [act] leaves the agent as it is. *)
Definition act (a : Agent) (state : ndarray) : result nat :=
  argmax (act_ (dqn a) (parameters (dqn a)) (noise (dqn a)) state).

Definition memorize (a : Agent) (last_ob : ndarray) (action : nat)
    (reward done : Qc) (ob : ndarray) : Agent :=
  let '(memory_n', first_in_seq) :=
    store_n (memory_n a) (last_ob, action, reward, ob, done) in
  {| params := params a;
     memory := match first_in_seq with
               | Some t => store (memory a) t
               | None => memory a
               end;
     memory_n := memory_n';
     beta := beta a; support := support a;
     dqn := dqn a; dqn_target := dqn_target a; optimizer := optimizer a;
     loss_per_batch := loss_per_batch a; episode_step := episode_step a;
     is_test := is_test a |}.

(** [t[range(self.batch_size), index]] on a tensor with a row per sample *)
Definition select {A} (batch_size : nat) (t : list (list A))
    (index : list nat) : result (list A) :=
  if decide (length index = batch_size)
  then for_rows (λ i k, row ← getitem t i; getitem row k) 0 index
  else Raise IndexError.

Definition the_distribution (n : Net ndarray Noise)
  : result (list (list Qc) → Noise → ndarray → list (list (list Qc))) :=
  match distribution n with
  | Some f => Ok f
  | None => Raise AttributeError
  end.

(** The [torch.no_grad()] block of [_compute_dqn_loss]: [proj_dist]. *)
Definition target_distribution (a : Agent) (samples : Samples ndarray)
    (dz gamma : Qc) : result (list (list Qc)) :=
  let p := params a in
  next_action ← for_rows (λ _ q, argmax q) 0
    (forward (dqn a) (parameters (dqn a)) (noise (dqn a)) (next_obs samples));
  f ← the_distribution (dqn_target a);
  next_dist ← select (batch_size p)
    (f (parameters (dqn_target a)) (noise (dqn_target a)) (next_obs samples))
    next_action;
  project (v_min p) (v_max p) (atom_size p) (batch_size p) (support a)
    dz gamma (rews samples) (done samples) next_dist.

(** [torch.log(t)] on a matrix *)
Definition torch_log (t : list (list Qc)) : list (list Qc) :=
  (λ row : list Qc, log <$> row) <$> t.

(** [-(proj_dist * log_p).sum(1)] *)
Definition cross_entropy (proj_dist log_p : list (list Qc))
  : result (list Qc) :=
  zip_strict (λ pr lp, m ← mul pr lp; Ok (- tensor_sum m)) proj_dist log_p.

(** [_compute_dqn_loss], with the data [θ] of the online parameters the
    gradient is taken in made explicit: the [no_grad] block reads the
    parameters the agent holds, lines 203-205 read [θ]. *)
Definition _compute_dqn_loss_at (a : Agent) (θ : list (list Qc))
    (samples : Samples ndarray) (gamma' : option Qc) : result (list Qc) :=
  let p := params a in
  let gamma' := default (gamma p) gamma' in
  dz ← delta_z (v_min p) (v_max p) (atom_size p);
  proj_dist ← target_distribution a samples dz gamma';
  f ← the_distribution (dqn a);
  dist ← select (batch_size p) (f θ (noise (dqn a)) (obs samples))
            (acts samples);
  cross_entropy proj_dist (torch_log dist).

Definition _compute_dqn_loss (a : Agent) (samples : Samples ndarray)
    (gamma' : option Qc) : result (list Qc) :=
  _compute_dqn_loss_at a (parameters (dqn a)) samples gamma'.

(** Line 119, [torch.mean(elementwise_loss * weights)].  [weights] is the
    column [(B, 1)] of line 110 and [elementwise_loss] has shape [(B,)]
    (the [.sum(1)] of line 205), so the product broadcasts to the matrix
    with entry [elementwise_loss[i] * weights[j]] in row [j], column [i],
    and the mean runs over all of its entries. *)
Definition weighted_loss (elementwise_loss weights : list Qc) : Qc :=
  mean (view_flat
          ((λ w, (λ e, e * w) <$> elementwise_loss) <$> weights)).

(** Lines 112-119 as a function of the online parameters. *)
Definition batch_loss (a : Agent) (samples : Samples ndarray)
    (θ : list (list Qc)) : result (list Qc * Qc) :=
  let p := params a in
  elementwise_loss ← _compute_dqn_loss_at a θ samples None;
  let samples_n := sample_batch_from_idxs (memory_n a) (indices samples) in
  let gamma_n := gamma p ^ n_step p in
  n_loss ← _compute_dqn_loss_at a θ samples_n (Some gamma_n);
  elementwise_loss ← add elementwise_loss n_loss;
  Ok (elementwise_loss, weighted_loss elementwise_loss (weights samples)).

(** The parameters with [.grad] taken from [gs] (position by position, a
    parameter beyond [gs] has none) and with [.data] taken from [ds]. *)
Definition set_grads (ps : list (string * Param))
    (gs : list (option (list Qc))) : list (string * Param) :=
  imap (λ i '(name, p), (name, {| data := data p; grad := mjoin (gs !! i) |}))
       ps.

Definition set_data (ps : list (string * Param))
    (ds : list (list Qc)) : list (string * Param) :=
  imap (λ i '(name, p),
          (name, {| data := default (data p) (ds !! i); grad := grad p |}))
       ps.

(** [update_model].  The scan of lines 126-128 only logs when it meets a
    NaN, and there is none among the rationals; [torch.isnan] raises on a
    parameter that has no gradient.  [squeeze()] leaves a vector of two or
    more priorities as it is; a single priority reaches the store as the
    one-element list. *)
Definition update_model (a : Agent) : result (Agent * Qc) :=
  let p := params a in
  let samples := sample_batch (memory a) (beta a) in
  let indices := indices samples in
  let θ := parameters (dqn a) in
  '(elementwise_loss, loss) ← batch_loss a samples θ;
  let grads :=
    clip_grad_norm_ (backward (λ θ', snd <$> batch_loss a samples θ') θ)
                    (Q2Qc 10) in
  let with_grad := set_grads (named_parameters (dqn a)) grads in
  if negb (forallb (λ q, bool_decide (is_Some (grad q.2))) with_grad)
  then Raise TypeError
  else
    let '(optimizer', θ') := step (optimizer a) (snd <$> with_grad) in
    let new_priorities := (λ l, l + prior_eps p) <$> elementwise_loss in
    Ok ({| params := p;
           memory := update_priorities (memory a) indices new_priorities;
           memory_n := memory_n a;
           beta := beta a; support := support a;
           dqn := set_parameters (dqn a) (set_data with_grad θ');
           dqn_target := dqn_target a;
           optimizer := optimizer';
           loss_per_batch := loss_per_batch a + loss;
           episode_step := S (episode_step a);
           is_test := is_test a |}, loss).


(** The loop of [_target_update]: [zip] stops at the shorter of the two
    parameter lists, a target without a partner stays as it is. *)
Fixpoint soft_update (tau : Qc) (ws : list (list Qc))
    (w_targets : list (string * Param)) : result (list (string * Param)) :=
  match ws, w_targets with
  | w :: ws', (name, w_target) :: w_targets' =>
      d ← add ((λ x, x * (1 - tau)) <$> data w_target)
              ((λ x, x * tau) <$> w);
      rest ← soft_update tau ws' w_targets';
      Ok ((name, {| data := d; grad := grad w_target |}) :: rest)
  | _, _ => Ok w_targets
  end.

Definition _target_update (a : Agent) : result Agent :=
  ps ← soft_update (tau (params a)) (parameters (dqn a))
         (named_parameters (dqn_target a));
  Ok {| params := params a; memory := memory a; memory_n := memory_n a;
        beta := beta a; support := support a; dqn := dqn a;
        dqn_target := set_parameters (dqn_target a) ps;
        optimizer := optimizer a; loss_per_batch := loss_per_batch a;
        episode_step := episode_step a; is_test := is_test a |}.

Definition set_beta (a : Agent) (beta' : Qc) : Agent :=
  {| params := params a; memory := memory a; memory_n := memory_n a;
     beta := beta'; support := support a; dqn := dqn a;
     dqn_target := dqn_target a; optimizer := optimizer a;
     loss_per_batch := loss_per_batch a; episode_step := episode_step a;
     is_test := is_test a |}.

Definition reset_noises (a : Agent) : Agent :=
  {| params := params a; memory := memory a; memory_n := memory_n a;
     beta := beta a; support := support a; dqn := reset_noise (dqn a);
     dqn_target := reset_noise (dqn_target a); optimizer := optimizer a;
     loss_per_batch := loss_per_batch a; episode_step := episode_step a;
     is_test := is_test a |}.

(** The value lines 97-102 assign to [self.beta]. *)
Definition annealed (a : Agent) : Qc :=
  let p := params a in
  py_max (buffer_beta_min p)
    (beta a - (buffer_beta_max p - buffer_beta_min p) * buffer_beta_decay p).

Definition update (a : Agent) : result Agent :=
  let p := params a in
  if decide (batch_size p ≤ len (memory a))%nat then
    '(a, _) ← update_model a;
    let a := set_beta a (annealed a) in
    a ← _target_update a;
    Ok (reset_noises a)
  else Ok a.

(** [torch.std(t)]: the square root of the unbiased variance. *)
Definition std (l : list Qc) : Qc :=
  sqrt (tensor_sum ((λ x, (x - mean l) ^ 2) <$> l)
        / of_Z (Z.of_nat (length l) - 1)).

(** The dict [grads] of [metrics]: the statistics are those of the
    parameter [p] itself, for the parameters that have a gradient. *)
Definition grads_of (ps : list (string * Param)) : gmap string Qc :=
  foldl (λ grads '(name, p),
           if grad p is Some _ then
             let avg := mean (data p) in
             let std := if decide (length (data p) ≠ 1)%nat
                        then std (data p) else 0 in
             <[name +:+ "_mean" := avg]> (<[name +:+ "_std" := std]> grads)
           else grads)
        ∅ ps.

Definition metrics (a : Agent) (episode_num : Z)
  : Agent * option (gmap string Qc) :=
  if decide (episode_num `mod` 10 ≠ 0)%Z then
    let loss_per_batch_mean :=
      if decide (episode_step a ≠ 0)%nat
      then loss_per_batch a / of_nat (episode_step a) else 0 in
    let grads := grads_of (named_parameters (dqn a)) in
    ({| params := params a; memory := memory a; memory_n := memory_n a;
        beta := beta a; support := support a; dqn := dqn a;
        dqn_target := dqn_target a; optimizer := optimizer a;
        loss_per_batch := 0; episode_step := 0; is_test := is_test a |},
     (* {"loss_per_batch": .., **grads}: the later keys win *)
     Some (grads ∪ {["loss_per_batch" := loss_per_batch_mean]}))
  else (a, None).

(** One call of the driving loop on the agent: [update] (when it returns),
    [memorize] or [metrics]; [act] leaves the agent as it is. *)
Inductive call : Agent → Agent → Prop :=
  | call_update a a' :
      update a = Ok a' → call a a'
  | call_memorize a last_ob action reward done ob :
      call a (memorize a last_ob action reward done ob)
  | call_metrics a episode_num :
      call a (metrics a episode_num).1.
End Agent.

(** ** A concrete instance

    A small world to run the agent in: an observation is a row of three
    masses, which the networks hand back as the distribution of either of two
    actions; the stores keep their transitions in a list and draw the oldest
    [batch_size] of them, the [i]-th with weight [1 / (i + 1)].  The
    logarithm is stood in for by its tangent at 1 and the square root by the
    identity, so the numbers of a run are those of this world only; the
    gradient is zero and the optimizer keeps the parameters. *)

Module Fixture.
Definition transition : Type :=
  list (list Qc) * nat * Qc * list (list Qc) * Qc.

Record store_state := {
  st_batch : nat;
  st_items : list transition;
  st_priorities : list Qc;
}.

Definition half : Qc := Q2Qc (1 # 2).
Definition quarter : Qc := Q2Qc (1 # 4).

Definition batch_of (ts : list transition) (ws : list Qc) (idx : list nat)
  : Samples (list (list Qc)) :=
  {| obs := concat ((λ t : transition, t.1.1.1.1) <$> ts);
     next_obs := concat ((λ t : transition, t.1.2) <$> ts);
     acts := (λ t : transition, t.1.1.1.2) <$> ts;
     rews := (λ t : transition, t.1.1.2) <$> ts;
     done := (λ t : transition, t.2) <$> ts;
     weights := ws;
     indices := idx |}.

Definition draw (m : store_state) (β : Qc) : Samples (list (list Qc)) :=
  let ts := take (st_batch m) (st_items m) in
  batch_of ts ((λ i, 1 / of_nat (S i)) <$> seq 0 (length ts))
           (seq 0 (length ts)).

Definition fetch (m : store_state) (idx : list nat)
  : Samples (list (list Qc)) :=
  batch_of (omap (λ i, st_items m !! i) idx) [] [].

Definition rescore (m : store_state) (idx : list nat) (ps : list Qc)
  : store_state :=
  {| st_batch := st_batch m; st_items := st_items m;
     st_priorities :=
       foldl (λ acc '(i, p), <[i := p]> acc) (st_priorities m) (zip idx ps) |}.

Definition push (m : store_state) (t : transition) : store_state :=
  {| st_batch := st_batch m; st_items := st_items m ++ [t];
     st_priorities := st_priorities m ++ [1] |}.

Definition net (with_distribution : bool) : Net (list (list Qc)) nat :=
  {| named_parameters := [("w"%string, {| data := [1; Q2Qc 3]; grad := None |})];
     noise := 0%nat;
     forward := λ _ _ x, (λ _, [0; 1]) <$> x;
     act_ := λ _ _ x, [0; 1];
     distribution :=
       if with_distribution then Some (λ _ _ x, (λ r, [r; r]) <$> x) else None;
     reset_noise_ := S |}.

#[local] Instance world : Collaborators := {|
  ndarray := list (list Qc);
  Noise := nat;
  PrioritizedReplayBuffer := store_state;
  ReplayBuffer := store_state;
  Adam := nat;
  log := λ x, x - 1;
  sqrt := λ x, x;
  new_memory := λ _ _ batch _ _,
    {| st_batch := batch; st_items := []; st_priorities := [] |};
  len := λ m, length (st_items m);
  store := push;
  sample_batch := draw;
  update_priorities := rescore;
  new_memory_n := λ _ _ batch _ _,
    {| st_batch := batch; st_items := []; st_priorities := [] |};
  store_n := λ m t, (push m t, Some t);
  sample_batch_from_idxs := fetch;
  CategoricalNet := λ _ _ _ _, net true;
  new_optimizer := λ _, 0%nat;
  backward := λ _ (θ : list (list Qc)),
    (λ w : list Qc, Some ((λ _, 0) <$> w)) <$> θ;
  clip_grad_norm_ := λ g _, g;
  step := λ o (ps : list Param), (S o, data <$> ps);
|}.

Definition config (with_distribution : bool) (batch : nat) (γ τ : Qc)
  : Params :=
  {| obs_dim := 3; action_dim := 2; memory_size := 4; batch_size := batch;
     gamma := γ; tau := τ; buffer_alpha := Q2Qc (6 # 10);
     buffer_beta_min := Q2Qc (1 # 10); buffer_beta_max := Q2Qc (9 # 10);
     buffer_beta_decay := Q2Qc (1 # 2000);
     prior_eps := Q2Qc (1 # 1000000);
     atom_size := 3; n_step := 1; v_min := 0; v_max := Q2Qc 2;
     Policy := λ _ _ _ _, net with_distribution |}.

(** The agent [__init__] builds from [config true batch γ τ]. *)
Definition fresh (batch : nat) (γ τ : Qc) : Agent :=
  {| params := config true batch γ τ;
     memory := {| st_batch := batch; st_items := []; st_priorities := [] |};
     memory_n := {| st_batch := batch; st_items := []; st_priorities := [] |};
     beta := Q2Qc (1 # 10);
     support := linspace 0 (Q2Qc 2) 3;
     dqn := net true; dqn_target := net true; optimizer := 0%nat;
     loss_per_batch := 0; episode_step := 0; is_test := false |}.

(** Two transitions with reward 1, seen from a state of masses
    (1/2, 1/4, 1/4) and from one of masses (1/4, 1/4, 1/2), both followed
    by the state whose mass sits on the middle atom. *)
Definition filled (a : Agent) : Agent :=
  let a := memorize a [[half; quarter; quarter]] 0 1 0 [[0; 1; 0]] in
  memorize a [[quarter; quarter; half]] 1 1 0 [[0; 1; 0]].

Definition returned {A} (otherwise : A) (r : result A) : A :=
  match r with
  | Ok a => a
  | Raise _ => otherwise
  end.

(** The agent after one [update] on two stored transitions, and what
    [update_model] returns on them. *)
Definition trained (γ τ : Qc) : Agent :=
  returned (fresh 2 γ τ) (update (filled (fresh 2 γ τ))).

Definition stepped (γ τ : Qc) : Agent * Qc :=
  returned (fresh 2 γ τ, 0) (update_model (filled (fresh 2 γ τ))).



End Fixture.

(** ** Quantities the further properties speak of *)

(** A tensor of masses (samples, actions, atoms) without a negative entry,
    and one of probabilities whose logarithms are not positive. *)
Definition non_negative (t : list (list (list Qc))) : Prop :=
  Forall (Forall (Forall (λ m, 0 ≤ m))) t.

Definition log_non_positive `{Collaborators} (t : list (list (list Qc)))
  : Prop :=
  Forall (Forall (Forall (λ p, log p ≤ 0))) t.

(** The names of a network's parameters, in order. *)
Definition names `{Collaborators} (n : Net ndarray Noise) : list string :=
  (named_parameters n).*1.



(** ** The requirement list of [setup.py]

    A line of [requirements.txt] is a [str], kept as the list of its
    characters. *)

(** The character ["\n"]. *)
Definition newline : Ascii.ascii := Ascii.ascii_of_nat 10.

(** [req[:-1] if req[-1] == "\n" else req] *)
Definition requirement (req : list Ascii.ascii) : result (list Ascii.ascii) :=
  match last req with
  | None => Raise IndexError
  | Some c =>
      if decide (c = newline) then Ok (take (length req - 1) req) else Ok req
  end.

(** [[... for req in requirements_file.readlines()]] *)
Definition requirements (lines : list (list Ascii.ascii))
  : result (list (list Ascii.ascii)) :=
  for_rows (λ _ req, requirement req) 0 lines.

(** What [readlines()] yields: a line is not empty and holds no newline
    before its last character. *)
Definition read_line (line : list Ascii.ascii) : Prop :=
  line ≠ [] ∧ newline ∉ take (length line - 1) line.

(** ** Further agents of the concrete instance *)

Module Cases.
Import Fixture.

(** An agent on a grid of a single atom, with a gate that is open. *)
Definition single_atom : @Agent world :=
  let a := fresh 0 half half in
  let p := params a in
  {| params :=
       {| obs_dim := obs_dim p; action_dim := action_dim p;
          memory_size := memory_size p; batch_size := batch_size p;
          gamma := gamma p; tau := tau p; buffer_alpha := buffer_alpha p;
          buffer_beta_min := buffer_beta_min p;
          buffer_beta_max := buffer_beta_max p;
          buffer_beta_decay := buffer_beta_decay p;
          prior_eps := prior_eps p; atom_size := 1; n_step := n_step p;
          v_min := v_min p; v_max := v_max p; Policy := Policy p |};
     memory := memory a; memory_n := memory_n a; beta := beta a;
     support := linspace (v_min p) (v_max p) 1; dqn := dqn a;
     dqn_target := dqn_target a; optimizer := optimizer a;
     loss_per_batch := loss_per_batch a; episode_step := episode_step a;
     is_test := is_test a |}.

(** The lines of a requirements file whose last line has no newline. *)
Definition lines : list (list Ascii.ascii) :=
  [String.list_ascii_of_string "torch" ++ [newline];
   [newline];
   String.list_ascii_of_string "numpy"].
End Cases.

(** * Properties *)

(** ** The exception monad and strict zips *)

Lemma bind_Ok {A B} (m : result A) (f : A → result B) (b : B) :
  m ≫= f = Ok b → ∃ a, m = Ok a ∧ f a = Ok b.
Proof. destruct m as [a|e]; simpl; [eauto | discriminate]. Qed.

Ltac bind_inv H :=
  let x := fresh "x" in
  let Hx := fresh "Hx" in
  apply bind_Ok in H; destruct H as (x & Hx & H).

(** Closed equations between values with decidable equality, by running
    both sides. *)
Ltac evaluate := apply (bool_decide_unpack _); vm_compute; exact I.

Lemma zip_strict_pure {A B C} (f : A → B → C) (x : list A) (y : list B)
    (r : list C) :
  zip_strict (λ a b, Ok (f a b)) x y = Ok r →
  length x = length y ∧ r = zip_with f x y.
Proof.
  revert y r. induction x as [|a x IH]; intros [|b y] r Hr; simpl in Hr;
    try discriminate.
  - by inversion Hr.
  - bind_inv Hr. inversion Hr; subst.
    destruct (IH _ _ Hx) as [Hlen ->]. simpl. by rewrite Hlen.
Qed.

Lemma zip_strict_length {A B C} (f : A → B → result C) x y r :
  zip_strict f x y = Ok r → length x = length y ∧ length r = length x.
Proof.
  revert y r. induction x as [|a x IH]; intros [|b y] r Hr; simpl in Hr;
    try discriminate.
  - by inversion Hr.
  - bind_inv Hr. bind_inv Hr. inversion Hr; subst.
    destruct (IH _ _ Hx0) as [Hlen Hlen']. simpl. split; congruence.
Qed.

(** ** Order facts on the rationals *)

Lemma Qc_sub_le (x d : Qc) : 0 ≤ d → x - d ≤ x.
Proof.
  intros Hd. apply Qcle_minus_iff.
  replace (x + - (x - d)) with d by ring. exact Hd.
Qed.

Lemma Qc_sub_nonneg (x y : Qc) : x ≤ y → 0 ≤ y - x.
Proof. intros Hxy. by apply Qcle_minus_iff in Hxy. Qed.

Lemma py_max_ge_l (a b : Qc) : a ≤ py_max a b.
Proof.
  unfold py_max. destruct (Qclt_le_dec a b) as [Hlt|Hle].
  - by apply Qclt_le_weak.
  - apply Qcle_refl.
Qed.

Lemma py_max_le (a b c : Qc) : a ≤ c → b ≤ c → py_max a b ≤ c.
Proof. unfold py_max. by destruct (Qclt_le_dec a b). Qed.

Lemma py_max_floor (a b : Qc) : b ≤ a → py_max a b = a.
Proof.
  unfold py_max. intros Hba. destruct (Qclt_le_dec a b) as [Hlt|Hle]; [|done].
  by apply Qcle_not_lt in Hba.
Qed.

(** ** Frames of the methods *)

Section AgentFacts.
Context `{Collaborators}.

Lemma init_Ok (p : Params) (a : Agent) :
  __init__ p = Ok a →
  params a = p ∧ beta a = buffer_beta_min p
  ∧ loss_per_batch a = 0 ∧ episode_step a = 0%nat.
Proof.
  unfold __init__. intros Hi.
  destruct (distribution _); [|discriminate].
  bind_inv Hi. by inversion Hi.
Qed.

Lemma update_model_frame (a a' : Agent) (loss : Qc) :
  update_model a = Ok (a', loss) →
  params a' = params a ∧ beta a' = beta a
  ∧ dqn_target a' = dqn_target a ∧ memory_n a' = memory_n a.
Proof.
  unfold update_model. intros Hu. bind_inv Hu. destruct x as [e l].
  destruct (negb _); [discriminate|].
  destruct (step _ _) as [o θ]. by inversion Hu.
Qed.

Lemma target_update_frame (a a' : Agent) :
  _target_update a = Ok a' →
  params a' = params a ∧ beta a' = beta a ∧ dqn a' = dqn a
  ∧ memory a' = memory a.
Proof. unfold _target_update. intros Hu. bind_inv Hu. by inversion Hu. Qed.

Lemma update_Ok (a a' : Agent) :
  update a = Ok a' →
  ((len (memory a) < batch_size (params a))%nat ∧ a' = a)
  ∨ ((batch_size (params a) ≤ len (memory a))%nat
     ∧ ∃ a1 loss a2,
         update_model a = Ok (a1, loss)
         ∧ _target_update (set_beta a1 (annealed a1)) = Ok a2
         ∧ a' = reset_noises a2).
Proof.
  unfold update. intros Hu.
  destruct (decide (batch_size (params a) ≤ len (memory a))%nat) as [Hge|Hlt].
  - right. split; [done|]. bind_inv Hu. destruct x as [a1 loss].
    bind_inv Hu. inversion Hu; subst. by exists a1, loss, x.
  - left. inversion Hu; subst. split; [lia|done].
Qed.

Lemma call_frame (a a' : Agent) :
  call a a' →
  params a' = params a ∧ (beta a' = beta a ∨ beta a' = annealed a).
Proof.
  intros [a0 a1 Hu|a0 ? ? ? ? ?|a0 n].
  - apply update_Ok in Hu as [[_ ->]|[_ (a2 & loss & a3 & Hm & Ht & ->)]];
      [by auto|].
    apply update_model_frame in Hm as (Hp & Hb & _).
    apply target_update_frame in Ht as (Hp' & Hb' & _). simpl in *.
    split; [congruence|]. right. rewrite Hb'. unfold annealed.
    by rewrite Hp, Hb.
  - unfold memorize. destruct (store_n _ _). by auto.
  - unfold metrics. destruct (decide _); by auto.
Qed.
End AgentFacts.

(** ** Beta annealing *)

Section Annealing.
Context `{Collaborators}.

Lemma decrement_nonneg (p : Params) :
  buffer_beta_min p ≤ buffer_beta_max p →
  0 ≤ buffer_beta_decay p →
  0 ≤ (buffer_beta_max p - buffer_beta_min p) * buffer_beta_decay p.
Proof.
  intros Hmm Hdecay. apply Qcmult_nonneg_nonneg; [|done].
  by apply Qc_sub_nonneg.
Qed.

Lemma annealed_bounds (a : Agent) :
  let p := params a in
  buffer_beta_min p ≤ buffer_beta_max p →
  0 ≤ buffer_beta_decay p →
  beta a ≤ buffer_beta_max p →
  buffer_beta_min p ≤ annealed a ∧ annealed a ≤ buffer_beta_max p.
Proof.
  intros p Hmm Hdecay Hb. unfold annealed. fold p. split.
  - apply py_max_ge_l.
  - apply py_max_le; [done|].
    eapply Qcle_trans; [|exact Hb].
    apply Qc_sub_le. by apply decrement_nonneg.
Qed.

Lemma annealed_at_floor (a : Agent) :
  let p := params a in
  buffer_beta_min p ≤ buffer_beta_max p →
  0 ≤ buffer_beta_decay p →
  beta a = buffer_beta_min p →
  annealed a = buffer_beta_min p.
Proof.
  intros p Hmm Hdecay Hb. unfold annealed. fold p. rewrite Hb.
  apply py_max_floor, Qc_sub_le. by apply decrement_nonneg.
Qed.
End Annealing.

(** C4. On an agent built with [buffer_beta_min <= buffer_beta_max] and
    [buffer_beta_decay >= 0], after any sequence of calls of the driving
    loop, [update] among them, beta is neither above [buffer_beta_max] nor
    below [buffer_beta_min]. *)
Theorem beta_within_bounds `{Collaborators} (p : Params) (a0 a : Agent) :
  buffer_beta_min p ≤ buffer_beta_max p →
  0 ≤ buffer_beta_decay p →
  __init__ p = Ok a0 →
  rtc call a0 a →
  buffer_beta_min p ≤ beta a ∧ beta a ≤ buffer_beta_max p.
Proof.
  intros Hmm Hdecay Hinit Hrun.
  apply init_Ok in Hinit as (Hp & Hb & _).
  cut (params a = p
       ∧ buffer_beta_min p ≤ beta a ∧ beta a ≤ buffer_beta_max p);
    [by intros (_ & ? & ?)|].
  revert a Hrun. apply rtc_ind_r.
  - rewrite Hb. split; [done|]. split; [apply Qcle_refl|done].
  - intros a a' _ Hcall (Hpa & Hlo & Hhi).
    apply call_frame in Hcall as [Hp' [Hb'|Hb']]; rewrite Hb';
      (split; [congruence|]); [done|].
    rewrite <- Hpa in *. by apply annealed_bounds.
Qed.

(** C10. Beta starts at [buffer_beta_min], and the schedule of [update]
    takes the larger of [buffer_beta_min] and beta minus a non-negative
    step: on an agent built with [buffer_beta_max >= buffer_beta_min] and
    [buffer_beta_decay >= 0] beta equals [buffer_beta_min] after every
    sequence of calls; the annealing never moves it. *)
Theorem beta_stays_at_minimum `{Collaborators} (p : Params) (a0 a : Agent) :
  buffer_beta_min p ≤ buffer_beta_max p →
  0 ≤ buffer_beta_decay p →
  __init__ p = Ok a0 →
  rtc call a0 a →
  beta a = buffer_beta_min p.
Proof.
  intros Hmm Hdecay Hinit Hrun.
  apply init_Ok in Hinit as (Hp & Hb & _).
  cut (params a = p ∧ beta a = buffer_beta_min p); [by intros [_ ?]|].
  revert a Hrun. apply rtc_ind_r; [done|].
  intros a a' _ Hcall [Hpa Hba].
  apply call_frame in Hcall as [Hp' [Hb'|Hb']]; rewrite Hb';
    (split; [congruence|]); [done|].
  rewrite <- Hpa in *. by apply annealed_at_floor.
Qed.

(** ** The warm-up gate *)

(** C5. While the prioritized store holds fewer than [batch_size]
    transitions, [update] returns the agent it was given: no loss is added
    to the accumulators, the parameters and the noise of both networks, beta,
    the optimizer and the stores are as before. *)
Theorem update_noop_during_warm_up `{Collaborators} (a : Agent) :
  (len (memory a) < batch_size (params a))%nat →
  update a = Ok a.
Proof.
  intros Hlt. unfold update.
  destruct (decide (batch_size (params a) ≤ len (memory a))%nat); [lia|done].
Qed.

(** ** Construction *)

(** C9. When the policy object the policy class builds has no
    [distribution], [__init__] raises [NotImplementedError] and returns no
    agent. *)
Theorem init_refuses_policy_without_distribution `{Collaborators}
    (p : Params) :
  distribution
    (Policy p (obs_dim p) (action_dim p) (atom_size p)
       (linspace (v_min p) (v_max p) (atom_size p))) = None →
  __init__ p = Raise NotImplementedError ∧ ∀ a, __init__ p ≠ Ok a.
Proof.
  intros Hnone. unfold __init__. rewrite Hnone. by split.
Qed.

(** ** The soft target update *)







Section TargetUpdate.
Context `{Collaborators}.


End TargetUpdate.


(** ** The gradient step *)

Lemma of_nat_mul (n m : nat) : of_nat (n * m) = of_nat n * of_nat m.
Proof.
  unfold of_nat, of_Z. rewrite Nat2Z.inj_mul, inject_Z_mult.
  apply Qc_is_canon. simpl. by rewrite !Qred_correct.
Qed.

Lemma tensor_sum_cons (a : Qc) (x : list Qc) :
  tensor_sum (a :: x) = a + tensor_sum x.
Proof. done. Qed.

Lemma tensor_sum_app (x y : list Qc) :
  tensor_sum (x ++ y) = tensor_sum x + tensor_sum y.
Proof.
  induction x as [|a x IH]; [simpl; ring|].
  rewrite <- app_comm_cons, !tensor_sum_cons, IH. ring.
Qed.

Lemma tensor_sum_scale (w : Qc) (x : list Qc) :
  tensor_sum ((λ e, e * w) <$> x) = tensor_sum x * w.
Proof.
  induction x as [|a x IH]; [simpl; ring|].
  rewrite fmap_cons, !tensor_sum_cons, IH. ring.
Qed.

(** The mean over the broadcast product only sees the mean of the weights. *)
Lemma weighted_loss_factors (elementwise_loss weights : list Qc) :
  weighted_loss elementwise_loss weights
  = mean elementwise_loss * mean weights.
Proof.
  unfold weighted_loss, mean, view_flat.
  assert (tensor_sum (concat ((λ w, (λ e, e * w) <$> elementwise_loss)
                                <$> weights))
          = tensor_sum elementwise_loss * tensor_sum weights) as ->.
  { induction weights as [|w ws IH]; [simpl; ring|].
    rewrite fmap_cons, concat_cons, tensor_sum_app, tensor_sum_scale, IH.
    rewrite tensor_sum_cons. ring. }
  assert (length (concat ((λ w, (λ e, e * w) <$> elementwise_loss)
                            <$> weights))
          = (length elementwise_loss * length weights)%nat) as ->.
  { induction weights as [|w ws IH]; [simpl; lia|].
    rewrite fmap_cons, concat_cons, length_app, length_fmap, IH. simpl. lia. }
  rewrite of_nat_mul. unfold Qcdiv. rewrite Qcinv_mult_distr. ring.
Qed.

Section UpdateModel.
Context `{Collaborators}.

Lemma update_model_Ok (a a' : Agent) (loss : Qc) :
  update_model a = Ok (a', loss) →
  let p := params a in
  let samples := sample_batch (memory a) (beta a) in
  let samples_n := sample_batch_from_idxs (memory_n a) (indices samples) in
  ∃ loss_1 loss_n,
    _compute_dqn_loss a samples None = Ok loss_1
    ∧ _compute_dqn_loss a samples_n (Some (gamma p ^ n_step p)) = Ok loss_n
    ∧ length loss_1 = length loss_n
    ∧ let elementwise_loss := zip_with Qcplus loss_1 loss_n in
      loss = weighted_loss elementwise_loss (weights samples)
      ∧ loss_per_batch a' = loss_per_batch a + loss
      ∧ episode_step a' = S (episode_step a)
      ∧ memory a'
        = update_priorities (memory a) (indices samples)
            ((λ l, l + prior_eps p) <$> elementwise_loss).
Proof.
  intros Hu. cbv zeta. unfold update_model in Hu.
  bind_inv Hu. destruct x as [e l].
  destruct (negb _); [discriminate|].
  destruct (step _ _) as [o θ]. inversion Hu; subst; clear Hu. simpl.
  unfold batch_loss in Hx. bind_inv Hx. bind_inv Hx. bind_inv Hx.
  inversion Hx; subst; clear Hx.
  apply zip_strict_pure in Hx2 as [Hlen ->].
  exists x, x0. by repeat split.
Qed.
End UpdateModel.

(** C7. [update_model] hands the store the priorities
    [elementwise_loss + prior_eps] at the sampled indices, where
    [elementwise_loss] is the sum of the 1-step and the n-step loss; they are
    strictly positive when [prior_eps > 0] and the losses are not
    negative. *)
Theorem priorities_written_back `{Collaborators} (a a' : Agent) (loss : Qc) :
  update_model a = Ok (a', loss) →
  0 < prior_eps (params a) →
  let p := params a in
  let samples := sample_batch (memory a) (beta a) in
  let samples_n := sample_batch_from_idxs (memory_n a) (indices samples) in
  ∃ loss_1 loss_n,
    _compute_dqn_loss a samples None = Ok loss_1
    ∧ _compute_dqn_loss a samples_n (Some (gamma p ^ n_step p)) = Ok loss_n
    ∧ let elementwise_loss := zip_with Qcplus loss_1 loss_n in
      let new_priorities := (λ l, l + prior_eps p) <$> elementwise_loss in
      memory a' = update_priorities (memory a) (indices samples) new_priorities
      ∧ (Forall (λ l, 0 ≤ l) elementwise_loss →
         Forall (λ q, 0 < q) new_priorities).
Proof.
  intros Hu Heps. cbv zeta.
  apply update_model_Ok in Hu as (l1 & ln & H1 & Hn & _ & _ & _ & _ & Hm).
  exists l1, ln. repeat split; [done..|].
  intros Hpos. apply Forall_fmap. eapply Forall_impl; [exact Hpos|].
  intros l Hl. simpl. by apply Qcplus_nonneg_pos.
Qed.

(** C3, at a batch of two with summed elementwise losses 2 and 0 and
    importance weights 1 and 1/2: line 119 averages the four products of a
    loss with a weight and returns 3/4, where the mean of the per-sample
    products [loss * weight] is 1. *)
Lemma weighted_loss_not_per_sample :
  weighted_loss [Q2Qc 2; 0] [1; Q2Qc (1 # 2)] = Q2Qc (3 # 4)
  ∧ mean (zip_with Qcmult [Q2Qc 2; 0] [1; Q2Qc (1 # 2)]) = 1.
Proof. split; evaluate. Qed.

(** ** Metrics *)

(** C8, at the episode numbers [10 * k] and [10 * k + 1]: on every tenth
    episode [metrics] returns nothing and leaves the accumulators alone; on
    the episode after it returns a snapshot and clears them.  The test of
    line 140 is [episode_num % 10], true off the multiples of ten. *)
Lemma metrics_on_tenth_episode `{Collaborators} (a : Agent) (k : Z) :
  metrics a (10 * k) = (a, None)
  ∧ is_Some (metrics a (10 * k + 1)).2
  ∧ loss_per_batch (metrics a (10 * k + 1)).1 = 0
  ∧ episode_step (metrics a (10 * k + 1)).1 = 0%nat.
Proof.
  assert ((10 * k) `mod` 10 = 0)%Z as H0
    by (rewrite Z.mul_comm; apply Z_mod_mult).
  assert ((10 * k + 1) `mod` 10 = 1)%Z as H1
    by (rewrite Z.add_comm, Z.mul_comm; apply Z_mod_plus_full).
  unfold metrics. rewrite H0, H1.
  destruct (decide (0 ≠ 0)%Z) as [Hne|_]; [done|].
  destruct (decide (1 ≠ 0)%Z) as [_|He]; [|lia].
  simpl. repeat split. by eexists.
Qed.

(** ** The projection at integer grid positions *)

(** A grid position with equal floor and ceiling has weight zero on both
    sides. *)
Lemma integer_position_weights (x : Qc) :
  floor x = ceil x → of_Z (ceil x) - x = 0 ∧ x - of_Z (floor x) = 0.
Proof.
  intros Heq.
  assert (x = of_Z (floor x)) as Hx.
  { apply Qc_is_canon. unfold of_Z. simpl. rewrite Qred_correct.
    apply Qle_antisym.
    - rewrite Heq. apply Qle_ceiling.
    - apply Qfloor_le. }
  rewrite <- Heq, <- Hx. split; ring.
Qed.

(** C1, at the scenario of the claim: [atom_size = 3], [v_min = 0],
    [v_max = 2], reward 1, done 0, [gamma = 1] and a target distribution with
    mass 1 on atom 1.  All three grid positions are integers and the
    projected distribution is zero everywhere: the mass is not placed on
    atom 2. *)
Lemma projection_scenario :
  (dz ← delta_z 0 (Q2Qc 2) 3;
   project 0 (Q2Qc 2) 3 1 (linspace 0 (Q2Qc 2) 3) dz 1 [1] [0] [[0; 1; 0]])
  = Ok [[0; 0; 0]].
Proof. evaluate. Qed.

(** C2, at the same batch: the target distribution of the sample sums to 1
    and its projection sums to 0. *)
Lemma projection_scenario_mass :
  row_sums [[0; 1; 0]] = [1]
  ∧ (dz ← delta_z 0 (Q2Qc 2) 3;
     proj_dist ← project 0 (Q2Qc 2) 3 1 (linspace 0 (Q2Qc 2) 3) dz 1 [1] [0]
                   [[0; 1; 0]];
     Ok (row_sums proj_dist))
    = Ok [0].
Proof. split; evaluate. Qed.

(** ** Mass conservation between the grid points *)


Lemma window_sum_alter (s : Qc) (flat : list Qc) (lo n k : nat) :
  (k < length flat)%nat →
  window_sum lo n (alter (λ x, x + s) k flat)
  = window_sum lo n flat
    + (if decide (lo ≤ k < lo + n)%nat then s else 0).
Proof.
  unfold window_sum. revert lo n k.
  induction flat as [|x flat IH]; intros lo n k Hk; simpl in Hk; [lia|].
  destruct lo as [|lo], k as [|k], n as [|n];
    try (case_decide; [lia|]; simpl; ring).
  - case_decide; [|lia]. simpl. ring.
  - change (alter (λ x0, x0 + s) (S k) (x :: flat))
      with (x :: alter (λ x0, x0 + s) k flat).
    change (take (S n) (drop 0 (x :: alter (λ x0, x0 + s) k flat)))
      with (x :: take n (drop 0 (alter (λ x0, x0 + s) k flat))).
    rewrite tensor_sum_cons, (IH 0%nat n k) by lia.
    change (take (S n) (drop 0 (x :: flat)))
      with (x :: take n (drop 0 flat)).
    rewrite tensor_sum_cons. repeat case_decide; try lia; ring.
  - change (drop (S lo) (alter (λ x0, x0 + s) (S k) (x :: flat)))
      with (drop lo (alter (λ x0, x0 + s) k flat)).
    rewrite (IH lo (S n) k) by lia.
    change (drop (S lo) (x :: flat)) with (drop lo flat).
    repeat case_decide; try lia; ring.
Qed.

Lemma index_add_window (self r : list Qc) (index : list Z) (source : list Qc)
    (lo n : nat) :
  index_add_ self index source = Ok r →
  length r = length self
  ∧ window_sum lo n r = window_sum lo n self + added_in lo n index source.
Proof.
  revert self source. induction index as [|i index IH];
    intros self [|s source] Hr; simpl in Hr; try discriminate.
  - inversion Hr; subst. split; [done|]. simpl. ring.
  - destruct (decide _) as [Hi|]; [|discriminate].
    apply IH in Hr as [Hlen ->]. rewrite length_alter in Hlen.
    split; [done|].
    rewrite window_sum_alter by lia.
    change (added_in lo n (i :: index) (s :: source))
      with ((if decide (Z.of_nat lo ≤ i < Z.of_nat lo + Z.of_nat n)%Z
             then s else 0) + added_in lo n index source).
    repeat case_decide; try lia; ring.
Qed.

Lemma added_in_app (lo n : nat) (i1 i2 : list Z) (s1 s2 : list Qc) :
  length i1 = length s1 →
  added_in lo n (i1 ++ i2) (s1 ++ s2)
  = added_in lo n i1 s1 + added_in lo n i2 s2.
Proof.
  revert s1. induction i1 as [|i i1 IH]; intros [|s s1] Hlen;
    simpl in Hlen; try lia.
  - simpl. ring.
  - rewrite <- !app_comm_cons.
    change (added_in lo n (i :: i1 ++ i2) (s :: s1 ++ s2))
      with ((if decide (Z.of_nat lo ≤ i < Z.of_nat lo + Z.of_nat n)%Z
             then s else 0) + added_in lo n (i1 ++ i2) (s1 ++ s2)).
    change (added_in lo n (i :: i1) (s :: s1))
      with ((if decide (Z.of_nat lo ≤ i < Z.of_nat lo + Z.of_nat n)%Z
             then s else 0) + added_in lo n i1 s1).
    rewrite IH by lia. ring.
Qed.

Lemma added_in_other_row (g : Qc → Z) (n i k : nat) (b source : list Qc) :
  i ≠ k →
  Forall (λ x, 0 ≤ g x < Z.of_nat n)%Z b →
  added_in (i * n) n (grid_index g n k b) source = 0.
Proof.
  intros Hik Hb. revert source.
  induction Hb as [|x b Hx Hb IH]; intros [|s source]; try done.
  change (added_in (i * n) n (grid_index g n k (x :: b)) (s :: source))
    with ((if decide (Z.of_nat (i * n) ≤ g x + offset n k
                      < Z.of_nat (i * n) + Z.of_nat n)%Z
           then s else 0) + added_in (i * n) n (grid_index g n k b) source).
  rewrite IH. unfold offset. case_decide; [|ring].
  assert (k < i ∨ i < k)%nat as [Hlt|Hlt] by lia; nia.
Qed.

Lemma added_in_own_row (g : Qc → Z) (n i : nat) (b source : list Qc) :
  length b = length source →
  Forall (λ x, 0 ≤ g x < Z.of_nat n)%Z b →
  added_in (i * n) n (grid_index g n i b) source = tensor_sum source.
Proof.
  intros Hlen Hb. revert source Hlen.
  induction Hb as [|x b Hx Hb IH]; intros [|s source] Hlen;
    simpl in Hlen; try lia; [done|].
  change (added_in (i * n) n (grid_index g n i (x :: b)) (s :: source))
    with ((if decide (Z.of_nat (i * n) ≤ g x + offset n i
                      < Z.of_nat (i * n) + Z.of_nat n)%Z
           then s else 0) + added_in (i * n) n (grid_index g n i b) source).
  rewrite IH, tensor_sum_cons by lia. unfold offset.
  case_decide; [ring|lia].
Qed.

Lemma added_in_rows (g : Qc → Z) (n i : nat) (b sources : list (list Qc)) :
  Forall2 (λ row source, length row = length source) b sources →
  Forall (Forall (λ x, 0 ≤ g x < Z.of_nat n)%Z) b →
  ∀ j,
    added_in (i * n) n
      (concat (imap (λ k, grid_index g n (j + k)) b)) (concat sources)
    = if decide (j ≤ i)%nat
      then default 0 (tensor_sum <$> sources !! (i - j)%nat) else 0.
Proof.
  induction 1 as [|row source b sources Hlen Hrows IH]; intros Hb j.
  - rewrite lookup_nil. by case_decide.
  - apply Forall_cons in Hb as [Hrow Hb].
    rewrite imap_cons, !concat_cons.
    rewrite added_in_app by (unfold grid_index; by rewrite length_fmap).
    rewrite (imap_ext _ (λ k, grid_index g n (S j + k))); last first.
    { intros k y _. simpl. f_equal. lia. }
    rewrite (IH Hb (S j)). replace (j + 0)%nat with j by lia.
    destruct (decide (i = j)) as [->|Hij].
    + rewrite added_in_own_row by done.
      replace (j - j)%nat with 0%nat by lia. simpl.
      repeat case_decide; try lia; ring.
    + rewrite added_in_other_row by done.
      repeat case_decide; try lia; [|ring].
      replace (i - j)%nat with (S (i - S j)) by lia. simpl. ring.
Qed.

Lemma zip_strict_lookup {A B C} (f : A → B → result C) x y r :
  zip_strict f x y = Ok r →
  ∀ i a b, x !! i = Some a → y !! i = Some b →
    ∃ c, r !! i = Some c ∧ f a b = Ok c.
Proof.
  revert y r. induction x as [|a0 x IH]; intros [|b0 y] r Hr; simpl in Hr;
    try discriminate.
  bind_inv Hr. bind_inv Hr. inversion Hr; subst.
  intros [|i] a b Ha Hb; simpl in *.
  - inversion Ha; inversion Hb; subst. eauto.
  - by apply (IH _ _ Hx0).
Qed.

Lemma reshape_replicate_lookup {A} (m n i : nat) (l : list A) :
  (i < m)%nat →
  reshape (replicate m n) l !! i = Some (take n (drop (i * n) l)).
Proof.
  revert i l. induction m as [|m IH]; intros i l Hi; [lia|].
  destruct i as [|i]; simpl; [done|].
  rewrite IH by lia. by rewrite drop_drop.
Qed.

Lemma uniform_lengths {A} (n : nat) (l : list (list A)) :
  Forall (λ row, length row = n) l → length <$> l = replicate (length l) n.
Proof.
  induction 1 as [|row l Hrow _ IH]; [done|].
  by rewrite fmap_cons, IH, Hrow.
Qed.

Lemma window_sum_zeros (lo n m : nat) : window_sum lo n (zeros m) = 0.
Proof.
  unfold window_sum, zeros. rewrite drop_replicate, take_replicate.
  induction (n `min` (m - lo))%nat as [|k IH]; simpl; [done|].
  rewrite IH. ring.
Qed.

Lemma ceil_above_floor (x : Qc) : floor x ≠ ceil x → ceil x = (floor x + 1)%Z.
Proof.
  unfold floor, ceil. intros Hne.
  pose proof (Qle_floor_ceiling x) as Hle. rewrite <- Zle_Qle in Hle.
  pose proof (Qlt_floor x) as Hf. pose proof (Qceiling_lt x) as Hc.
  pose proof (Qlt_trans _ _ _ Hc Hf) as Hlt. rewrite <- Zlt_Qlt in Hlt.
  lia.
Qed.

(** The two sources of a row add up to the row itself when every entry
    is zero or sits strictly between two grid points. *)
Lemma sources_sum (masses b : list Qc) :
  Forall2 (λ mass x, mass = 0 ∨ floor x ≠ ceil x) masses b →
  tensor_sum (zip_with Qcmult masses ((λ x, of_Z (ceil x) - x) <$> b))
  + tensor_sum (zip_with Qcmult masses ((λ x, x - of_Z (floor x)) <$> b))
  = tensor_sum masses.
Proof.
  induction 1 as [|mass x masses b Hx _ IH]; [simpl; ring|].
  rewrite !fmap_cons. simpl zip_with. rewrite !tensor_sum_cons, <- IH.
  destruct Hx as [->|Hx]; [ring|].
  rewrite (ceil_above_floor x Hx).
  assert (of_Z (floor x + 1) = of_Z (floor x) + 1) as ->; [|ring].
  unfold of_Z. rewrite inject_Z_plus. apply Qc_is_canon. simpl.
  by rewrite !Qred_correct.
Qed.

Lemma in_grid_floor (n : nat) (x : Qc) :
  in_grid n x → (0 ≤ floor x < Z.of_nat n)%Z.
Proof.
  intros [Hlo Hhi]. pose proof (Qle_floor_ceiling x) as Hle.
  rewrite <- Zle_Qle in Hle. unfold floor, ceil in *. lia.
Qed.

Lemma in_grid_ceil (n : nat) (x : Qc) :
  in_grid n x → (0 ≤ ceil x < Z.of_nat n)%Z.
Proof.
  intros [Hlo Hhi]. pose proof (Qle_floor_ceiling x) as Hle.
  rewrite <- Zle_Qle in Hle. unfold floor, ceil in *. lia.
Qed.

(** Where every grid position of a sample lies inside the grid and no mass
    sits on a position that is itself a grid point, the projection of the
    sample has the mass of its target distribution. *)
Lemma project_conserves_mass_between_grid_points
    (v_min v_max : Qc) (atom_size batch_size : nat) (support : list Qc)
    (dz gamma : Qc) (reward done : list Qc)
    (next_dist proj_dist : list (list Qc)) :
  length support = atom_size →
  project v_min v_max atom_size batch_size support dz gamma reward done
    next_dist = Ok proj_dist →
  let b := zip_with (b_row v_min v_max support dz gamma) reward done in
  Forall (Forall (in_grid atom_size)) b →
  Forall2 (Forall2 (λ mass x, mass = 0 ∨ floor x ≠ ceil x)) next_dist b →
  row_sums proj_dist = row_sums next_dist.
Proof.
  intros Hsupport Hp b Hgrid Hoff. unfold project in Hp.
  bind_inv Hp. apply zip_strict_pure in Hx as [_ Hb]. fold b in Hb. subst x.
  destruct (negb _); [discriminate|].
  bind_inv Hp. rename x into src_l, Hx into Hl.
  bind_inv Hp. rename x into src_u, Hx into Hu.
  bind_inv Hp. rename x into P1, Hx into H1.
  bind_inv Hp. rename x into P2, Hx into H2.
  inversion Hp; subst proj_dist; clear Hp.
  set (n := atom_size) in *.
  (* shapes *)
  assert (Forall (λ row : list Qc, length row = n) b) as Hbn.
  { apply Forall_forall. intros row Hrow. unfold b in Hrow.
    apply list_elem_of_lookup in Hrow as [i Hi].
    apply lookup_zip_with_Some in Hi as (r & d & -> & _ & _).
    unfold b_row. by rewrite length_fmap. }
  assert (Forall2 (λ (nd row : list Qc), length nd = length row) next_dist b)
    as Hshape.
  { eapply Forall2_impl; [exact Hoff|]. intros nd row Hrow.
    by eapply Forall2_length. }
  assert (Forall (λ nd : list Qc, length nd = n) next_dist) as Hndn.
  { apply Forall_forall. intros nd Hnd.
    apply list_elem_of_lookup in Hnd as [i Hi].
    destruct (Forall2_lookup_l _ _ _ _ _ Hshape Hi) as (row & Hrow & ->).
    eapply Forall_lookup_1 in Hbn; [|exact Hrow]. done. }
  rewrite (uniform_lengths n) by done.
  (* the sources, row by row *)
  assert (∀ i nd row, next_dist !! i = Some nd → b !! i = Some row →
            src_l !! i = Some (zip_with Qcmult nd
                                 ((λ x, of_Z (ceil x) - x) <$> row))
            ∧ src_u !! i = Some (zip_with Qcmult nd
                                   ((λ x, x - of_Z (floor x)) <$> row)))
    as Hsrc.
  { intros i nd row Hnd Hrow. split.
    - destruct (zip_strict_lookup _ _ _ _ Hl i nd row Hnd Hrow)
        as (c & -> & Hc).
      by apply zip_strict_pure in Hc as [_ ->].
    - destruct (zip_strict_lookup _ _ _ _ Hu i nd row Hnd Hrow)
        as (c & -> & Hc).
      by apply zip_strict_pure in Hc as [_ ->]. }
  assert (Forall2 (λ (row source : list Qc), length row = length source)
            b src_l ∧
          Forall2 (λ (row source : list Qc), length row = length source)
            b src_u) as [Hll Hlu].
  { apply zip_strict_length in Hl as [Hl1 Hl2].
    apply zip_strict_length in Hu as [Hu1 Hu2].
    split; apply Forall2_same_length_lookup; (split; [congruence|]);
      intros i row source Hrow Hsource.
    - destruct (lookup_lt_is_Some_2 next_dist i) as [nd Hnd];
        [rewrite Hl1; by eapply lookup_lt_Some|].
      destruct (Hsrc i nd row Hnd Hrow) as [Hs _].
      rewrite Hs in Hsource. inversion Hsource; subst.
      rewrite length_zip_with, length_fmap.
      eapply Forall2_lookup_lr in Hshape; [|exact Hnd|exact Hrow]. lia.
    - destruct (lookup_lt_is_Some_2 next_dist i) as [nd Hnd];
        [rewrite Hu1; by eapply lookup_lt_Some|].
      destruct (Hsrc i nd row Hnd Hrow) as [_ Hs].
      rewrite Hs in Hsource. inversion Hsource; subst.
      rewrite length_zip_with, length_fmap.
      eapply Forall2_lookup_lr in Hshape; [|exact Hnd|exact Hrow]. lia. }
  (* row by row *)
  apply list_eq. intros i. unfold row_sums. rewrite !list_lookup_fmap.
  destruct (next_dist !! i) as [nd|] eqn:Hnd; last first.
  { rewrite lookup_ge_None_2; [done|].
    rewrite length_reshape, length_replicate. by apply lookup_ge_None_1. }
  rewrite reshape_replicate_lookup by (by eapply lookup_lt_Some).
  simpl. f_equal.
  destruct (Forall2_lookup_l _ _ _ _ _ Hoff Hnd) as (row & Hrow & Hmass).
  change (tensor_sum (take n (drop (i * n) P2))) with (window_sum (i * n) n P2).
  destruct (index_add_window _ _ _ _ (i * n) n H2) as [_ ->].
  destruct (index_add_window _ _ _ _ (i * n) n H1) as [_ ->].
  rewrite window_sum_zeros. unfold view_flat.
  change (imap (lower_index n) b)
    with (imap (λ k, grid_index floor n (0 + k)) b).
  change (imap (upper_index n) b)
    with (imap (λ k, grid_index ceil n (0 + k)) b).
  rewrite !added_in_rows; try done.
  - case_decide; [|lia]. replace (i - 0)%nat with i by lia.
    destruct (Hsrc i nd row Hnd Hrow) as [-> ->]. simpl.
    rewrite <- (sources_sum nd row Hmass). ring.
  - eapply Forall_impl; [exact Hgrid|]. intros r Hr.
    eapply Forall_impl; [exact Hr|]. intros x. apply in_grid_ceil.
  - eapply Forall_impl; [exact Hgrid|]. intros r Hr.
    eapply Forall_impl; [exact Hr|]. intros x. apply in_grid_floor.
Qed.

(** A sample with reward 1 and [gamma = 1/2]: the mass of atom 1 lands on
    position 3/2 and is split between atoms 1 and 2. *)
Example projection_between_grid_points :
  (dz ← delta_z 0 (Q2Qc 2) 3;
   project 0 (Q2Qc 2) 3 1 (linspace 0 (Q2Qc 2) 3) dz (Q2Qc (1 # 2)) [1] [0]
     [[0; 1; 0]])
  = Ok [[0; Q2Qc (1 # 2); Q2Qc (1 # 2)]].
Proof. evaluate. Qed.

(** ** The theorems on the concrete instance *)

Import Fixture.

Lemma fixture_init :
  __init__ (config true 2 half half) = Ok (fresh 2 half half).
Proof. vm_compute. reflexivity. Qed.

Lemma fixture_update :
  update (filled (fresh 2 half half)) = Ok (trained half half).
Proof. vm_compute. reflexivity. Qed.

Lemma fixture_run : rtc call (fresh 2 half half) (trained half half).
Proof.
  eapply rtc_l; [apply call_memorize|].
  eapply rtc_l; [apply call_memorize|].
  eapply rtc_once, call_update, fixture_update.
Qed.

Lemma beta_within_bounds_witness :
  buffer_beta_min (config true 2 half half)
    ≤ beta (trained half half)
  ∧ beta (trained half half)
    ≤ buffer_beta_max (config true 2 half half).
Proof.
  apply (beta_within_bounds (config true 2 half half) (fresh 2 half half)).
  - by vm_compute.
  - by vm_compute.
  - apply fixture_init.
  - apply fixture_run.
Defined.

Lemma beta_stays_at_minimum_witness :
  beta (trained half half) = buffer_beta_min (config true 2 half half).
Proof.
  apply (beta_stays_at_minimum (config true 2 half half) (fresh 2 half half)).
  - by vm_compute.
  - by vm_compute.
  - apply fixture_init.
  - apply fixture_run.
Defined.

Lemma update_noop_during_warm_up_witness :
  update (fresh 2 half half) = Ok (fresh 2 half half).
Proof. apply update_noop_during_warm_up. vm_compute. lia. Defined.

Lemma init_refuses_policy_without_distribution_witness :
  __init__ (config false 2 half half) = Raise NotImplementedError
  ∧ ∀ a, __init__ (config false 2 half half) ≠ Ok a.
Proof. apply init_refuses_policy_without_distribution. reflexivity. Defined.

Lemma fixture_update_model :
  update_model (filled (fresh 2 half half)) = Ok (stepped half half).
Proof. vm_compute. reflexivity. Qed.



Lemma priorities_written_back_witness :
  let a := filled (fresh 2 half half) in
  let samples := sample_batch (memory a) (beta a) in
  let samples_n := sample_batch_from_idxs (memory_n a) (indices samples) in
  ∃ loss_1 loss_n,
    _compute_dqn_loss a samples None = Ok loss_1
    ∧ _compute_dqn_loss a samples_n (Some (half ^ 1)) = Ok loss_n
    ∧ let elementwise_loss := zip_with Qcplus loss_1 loss_n in
      let new_priorities :=
        (λ l, l + Q2Qc (1 # 1000000)) <$> elementwise_loss in
      memory (stepped half half).1
      = update_priorities (memory a) (indices samples) new_priorities
      ∧ (Forall (λ l, 0 ≤ l) elementwise_loss →
         Forall (λ q, 0 < q) new_priorities).
Proof.
  apply (priorities_written_back (filled (fresh 2 half half))
           (stepped half half).1 (stepped half half).2).
  - apply fixture_update_model.
  - by vm_compute.
Defined.

(** What the snapshot of [metrics] holds for the parameter [w] of the
    trained agent: the mean of its data [1; 3], while its gradient is
    [0; 0]. *)
Example metrics_statistics_of_parameters :
  ((metrics (trained half half) 1).2 ≫= λ snapshot, snapshot !! "w_mean"%string)
  = Some (Q2Qc 2)
  ∧ (λ ps : string * Param, grad ps.2)
      <$> named_parameters (dqn (trained half half))
    = [Some [0; 0]].
Proof. split; evaluate. Qed.

(** The loss [update_model] returns on the two stored transitions: the
    summed elementwise losses are 3/2 and 5/4, the weights 1 and 1/2. *)
Example update_model_loss_on_fixture :
  let a := filled (fresh 2 half half) in
  let samples := sample_batch (memory a) (beta a) in
  batch_loss a samples (parameters (dqn a))
  = Ok ([Q2Qc (3 # 2); Q2Qc (5 # 4)], Q2Qc (33 # 32))
  ∧ weights samples = [1; Q2Qc (1 # 2)]
  ∧ (stepped half half).2 = Q2Qc (33 # 32)
  ∧ mean (zip_with Qcmult [Q2Qc (3 # 2); Q2Qc (5 # 4)] [1; Q2Qc (1 # 2)])
    = Q2Qc (17 # 16).
Proof. repeat split; evaluate. Qed.

(** The scenario of C1 inside the agent: one stored transition with reward
    1, [gamma = 1], followed by the state whose mass sits on atom 1. *)
Example projection_scenario_in_agent :
  let a := memorize (fresh 1 1 half) [[half; quarter; quarter]] 0 1 0
             [[0; 1; 0]] in
  let samples := sample_batch (memory a) (beta a) in
  (dz ← delta_z 0 (Q2Qc 2) 3; target_distribution a samples dz 1)
  = Ok [[0; 0; 0]]
  ∧ _compute_dqn_loss a samples None = Ok [0].
Proof. split; evaluate. Qed.

(** * Further properties of the code *)

(** ** What [project] has computed when it returns *)

Lemma zip_strict_pure_Ok {A B C} (f : A → B → C) (x : list A) (y : list B) :
  length x = length y →
  zip_strict (λ a b, Ok (f a b)) x y = Ok (zip_with f x y).
Proof.
  revert y. induction x as [|a x IH]; intros [|b y] Hlen; simpl in Hlen;
    try lia; [done|].
  simpl. rewrite IH by lia. done.
Qed.

Lemma zip_strict_mul (f : Qc → Qc) (x y : list (list Qc)) (r : list (list Qc)) :
  zip_strict (λ nd row, mul nd (f <$> row)) x y = Ok r →
  Forall2 (λ nd row : list Qc, length nd = length row) x y
  ∧ r = zip_with (λ nd row, zip_with Qcmult nd (f <$> row)) x y.
Proof.
  revert y r. induction x as [|nd x IH]; intros [|row y] r Hr; simpl in Hr;
    try discriminate.
  - inversion Hr. by split.
  - bind_inv Hr. bind_inv Hr. inversion Hr; subst; clear Hr.
    apply zip_strict_pure in Hx as [Hlen ->]. rewrite length_fmap in Hlen.
    destruct (IH _ _ Hx0) as [Hshape ->]. split; [by constructor|done].
Qed.

Lemma project_Ok (v_min v_max : Qc) (n batch_size : nat) (support : list Qc)
    (dz gamma : Qc) (reward done : list Qc)
    (next_dist proj_dist : list (list Qc)) :
  project v_min v_max n batch_size support dz gamma reward done next_dist
  = Ok proj_dist →
  let b := zip_with (b_row v_min v_max support dz gamma) reward done in
  let src_l := zip_with (λ nd row, zip_with Qcmult nd
                                     ((λ x, of_Z (ceil x) - x) <$> row))
                 next_dist b in
  let src_u := zip_with (λ nd row, zip_with Qcmult nd
                                     ((λ x, x - of_Z (floor x)) <$> row))
                 next_dist b in
  length reward = length done
  ∧ length b = batch_size
  ∧ Forall2 (λ nd row : list Qc, length nd = length row) next_dist b
  ∧ ∃ P1 P2,
      index_add_ (zeros (length (concat next_dist)))
        (concat (imap (lower_index n) b)) (concat src_l) = Ok P1
      ∧ index_add_ P1 (concat (imap (upper_index n) b)) (concat src_u) = Ok P2
      ∧ proj_dist = reshape (length <$> next_dist) P2.
Proof.
  intros Hp. cbv zeta. unfold project in Hp.
  bind_inv Hp. apply zip_strict_pure in Hx as [Hrd ->].
  destruct (bool_decide _) eqn:Hb; [|discriminate]. simpl in Hp.
  apply bool_decide_eq_true in Hb.
  bind_inv Hp. apply zip_strict_mul in Hx as [Hshape ->].
  bind_inv Hp. apply zip_strict_mul in Hx as [_ ->].
  bind_inv Hp. bind_inv Hp. inversion Hp; subst; clear Hp.
  repeat split; try done. by exists x, x0.
Qed.

(** ** Non-negative masses stay non-negative *)

Lemma index_add_nonneg (self r : list Qc) (index : list Z) (source : list Qc) :
  index_add_ self index source = Ok r →
  Forall (λ x, 0 ≤ x) self → Forall (λ x, 0 ≤ x) source →
  Forall (λ x, 0 ≤ x) r.
Proof.
  revert self source. induction index as [|i index IH];
    intros self [|s source] Hr Hself Hsource; simpl in Hr; try discriminate.
  - by inversion Hr; subst.
  - destruct (decide _) as [Hi|]; [|discriminate].
    apply Forall_cons in Hsource as [Hs Hsource].
    apply (IH _ _ Hr); [|done].
    apply Forall_alter; [done|]. intros x _ Hx. simpl.
    by apply Qcplus_nonneg_nonneg.
Qed.

Lemma ceil_weight_nonneg (x : Qc) : 0 ≤ of_Z (ceil x) - x.
Proof.
  apply Qc_sub_nonneg. unfold Qcle, of_Z, ceil. simpl.
  rewrite Qred_correct. apply Qle_ceiling.
Qed.

Lemma floor_weight_nonneg (x : Qc) : 0 ≤ x - of_Z (floor x).
Proof.
  apply Qc_sub_nonneg. unfold Qcle, of_Z, floor. simpl.
  rewrite Qred_correct. apply Qfloor_le.
Qed.

Lemma weighted_rows_nonneg (f : Qc → Qc) (x y : list (list Qc)) :
  (∀ z, 0 ≤ f z) →
  Forall (Forall (λ m, 0 ≤ m)) x →
  Forall (Forall (λ m, 0 ≤ m))
    (zip_with (λ nd row, zip_with Qcmult nd (f <$> row)) x y).
Proof.
  intros Hf Hx. apply Forall_forall. intros r Hr.
  apply list_elem_of_lookup in Hr as [i Hi].
  apply lookup_zip_with_Some in Hi as (nd & row & -> & Hnd & _).
  eapply Forall_lookup_1 in Hx; [|exact Hnd].
  apply Forall_forall. intros m Hm.
  apply list_elem_of_lookup in Hm as [j Hj].
  apply lookup_zip_with_Some in Hj as (m0 & w & -> & Hm0 & Hw).
  eapply Forall_lookup_1 in Hx; [|exact Hm0].
  apply list_lookup_fmap_Some in Hw as (z & -> & _).
  by apply Qcmult_nonneg_nonneg.
Qed.

Lemma project_nonneg
    (v_min v_max : Qc) (n batch_size : nat) (support : list Qc)
    (dz gamma : Qc) (reward done : list Qc)
    (next_dist proj_dist : list (list Qc)) :
  project v_min v_max n batch_size support dz gamma reward done next_dist
  = Ok proj_dist →
  Forall (Forall (λ m, 0 ≤ m)) next_dist →
  Forall (Forall (λ m, 0 ≤ m)) proj_dist.
Proof.
  intros Hp Hnd.
  apply project_Ok in Hp as (_ & _ & _ & P1 & P2 & H1 & H2 & ->).
  apply Forall_reshape.
  eapply index_add_nonneg; [exact H2| |].
  - eapply index_add_nonneg; [exact H1| |].
    + unfold zeros. apply Forall_replicate, Qcle_refl.
    + apply Forall_concat, weighted_rows_nonneg; [|done].
      apply ceil_weight_nonneg.
  - apply Forall_concat, weighted_rows_nonneg; [|done].
    apply floor_weight_nonneg.
Qed.


(** ** The loss is not negative *)

Tactic Notation "bind_inv" hyp(H) "as" ident(y) ident(Hy) :=
  apply bind_Ok in H; destruct H as (y & Hy & H).

Lemma for_rows_lookup {A B} (f : nat → A → result B) (i : nat) (l : list A)
    (r : list B) :
  for_rows f i l = Ok r →
  length r = length l
  ∧ ∀ k y, r !! k = Some y → ∃ x, l !! k = Some x ∧ f (i + k)%nat x = Ok y.
Proof.
  revert i r. induction l as [|x l IH]; intros i r Hr; simpl in Hr.
  - inversion Hr; subst. split; [done|]. intros k y Hk.
    by rewrite lookup_nil in Hk.
  - bind_inv Hr as y0 Hy0. bind_inv Hr as ys Hys.
    inversion Hr; subst; clear Hr.
    destruct (IH _ _ Hys) as [Hlen Hrows]. split; [simpl; by rewrite Hlen|].
    intros [|k] y Hk; simpl in Hk.
    + inversion Hk; subst. exists x. split; [done|].
      by replace (i + 0)%nat with i by lia.
    + destruct (Hrows k y Hk) as (x' & Hx' & Hf). exists x'. split; [done|].
      by replace (i + S k)%nat with (S i + k)%nat by lia.
Qed.

Lemma getitem_Ok {A} (l : list A) (i : nat) (x : A) :
  getitem l i = Ok x ↔ l !! i = Some x.
Proof. unfold getitem. destruct (l !! i); split; congruence. Qed.

Section Select.
Context `{Collaborators}.

Lemma select_rows {A} (P : A → Prop) (batch_size : nat) (t : list (list A))
    (index : list nat) (r : list A) :
  select batch_size t index = Ok r →
  Forall (Forall P) t → Forall P r.
Proof.
  unfold select. intros Hr Ht. destruct (decide _); [|discriminate].
  apply for_rows_lookup in Hr as [_ Hrows].
  apply Forall_forall. intros y Hy.
  apply list_elem_of_lookup in Hy as [k Hk].
  destruct (Hrows k y Hk) as (a & _ & Hf).
  bind_inv Hf as row Hrow. apply getitem_Ok in Hrow, Hf.
  eapply Forall_lookup_1 in Ht; [|exact Hrow].
  by eapply Forall_lookup_1 in Ht.
Qed.

Lemma cross_entropy_nonneg (proj_dist log_p : list (list Qc)) (e : list Qc) :
  cross_entropy proj_dist log_p = Ok e →
  Forall (Forall (λ m, 0 ≤ m)) proj_dist →
  Forall (Forall (λ l, l ≤ 0)) log_p →
  Forall (λ l, 0 ≤ l) e.
Proof.
  unfold cross_entropy. revert log_p e.
  induction proj_dist as [|pr proj IH]; intros [|lp log_p] e He Hp Hl;
    simpl in He; try discriminate.
  - inversion He. constructor.
  - bind_inv He as c Hc. bind_inv Hc as m Hm. inversion Hc; subst; clear Hc.
    bind_inv He as es Hes. inversion He; subst; clear He.
    apply Forall_cons in Hp as [Hpr Hp]. apply Forall_cons in Hl as [Hlp Hl].
    constructor; [|by eapply IH].
    apply zip_strict_pure in Hm as [_ ->].
    clear -Hpr Hlp. revert lp Hlp.
    induction Hpr as [|m pr Hm _ IH]; intros [|l lp] Hlp; cbn [zip_with];
      try (simpl; apply Qcle_refl).
    apply Forall_cons in Hlp as [Hl Hlp]. rewrite tensor_sum_cons.
    specialize (IH lp Hlp).
    replace (- (m * l + tensor_sum (zip_with Qcmult pr lp)))
      with (m * (- l) + - tensor_sum (zip_with Qcmult pr lp)) by ring.
    apply Qcplus_nonneg_nonneg; [|done].
    apply Qcmult_nonneg_nonneg; [done|].
    apply Qcopp_le_compat in Hl. by replace (- 0) with 0 in Hl by ring.
Qed.

Lemma compute_dqn_loss_at_nonneg (a : Agent) (θ : list (list Qc))
    (samples : Samples ndarray) (gamma' : option Qc) (e : list Qc) :
  _compute_dqn_loss_at a θ samples gamma' = Ok e →
  (∀ f, distribution (dqn_target a) = Some f →
        non_negative (f (parameters (dqn_target a)) (noise (dqn_target a))
                        (next_obs samples))) →
  (∀ f, distribution (dqn a) = Some f →
        log_non_positive (f θ (noise (dqn a)) (obs samples))) →
  Forall (λ l, 0 ≤ l) e.
Proof.
  intros He Htarget Honline. unfold _compute_dqn_loss_at in He.
  bind_inv He as dz Hdz.
  bind_inv He as proj_dist Hproj.
  bind_inv He as f Hf.
  bind_inv He as dist Hdist.
  unfold target_distribution in Hproj.
  bind_inv Hproj as next_action Hna. bind_inv Hproj as ft Hft.
  bind_inv Hproj as next_dist Hnd.
  unfold the_distribution in Hf, Hft.
  destruct (distribution (dqn a)) as [f'|] eqn:Hd; [|discriminate].
  destruct (distribution (dqn_target a)) as [ft'|] eqn:Hdt; [|discriminate].
  inversion Hf; inversion Hft; subst; clear Hf Hft.
  eapply cross_entropy_nonneg; [exact He| |].
  - eapply project_nonneg; [exact Hproj|].
    eapply select_rows; [exact Hnd|]. by apply Htarget.
  - unfold torch_log. apply Forall_fmap.
    eapply Forall_impl; [eapply select_rows; [exact Hdist|by apply Honline]|].
    intros row Hrow. simpl. by apply Forall_fmap.
Qed.
End Select.

(** ** The projection, as its caller sees it *)

Lemma index_add_length (self r : list Qc) (index : list Z)
    (source : list Qc) :
  index_add_ self index source = Ok r → length r = length self.
Proof.
  revert self source. induction index as [|i index IH];
    intros self [|s source] Hr; simpl in Hr; try discriminate.
  - by inversion Hr.
  - destruct (decide _); [|discriminate].
    rewrite (IH _ _ Hr). by rewrite length_alter.
Qed.

Lemma concat_length_sum (m : list (list Qc)) :
  length (concat m) = sum_list (length <$> m).
Proof.
  induction m as [|row m IH]; [done|].
  simpl. by rewrite length_app, IH.
Qed.

Lemma reshape_lengths {A} (szs : list nat) (l : list A) :
  sum_list szs = length l → length <$> reshape szs l = szs.
Proof.
  revert l. induction szs as [|sz szs IH]; intros l Hl; [done|].
  simpl in *. rewrite length_take, IH by (rewrite length_drop; lia).
  f_equal. lia.
Qed.

(** X4. Whenever the projection returns, the projected distribution has the
    shape of the target distribution it was made from, row by row, and,
    when no mass of the target distribution is negative, no negative
    entry. *)
Theorem projection_has_no_negative_entry
    (v_min v_max : Qc) (n batch_size : nat) (support : list Qc)
    (dz gamma : Qc) (reward done : list Qc)
    (next_dist proj_dist : list (list Qc)) :
  project v_min v_max n batch_size support dz gamma reward done next_dist
  = Ok proj_dist →
  Forall (Forall (λ m, 0 ≤ m)) next_dist →
  length <$> proj_dist = length <$> next_dist
  ∧ Forall (Forall (λ m, 0 ≤ m)) proj_dist.
Proof.
  intros Hp Hnd. split; [|by eapply project_nonneg].
  apply project_Ok in Hp as (_ & _ & _ & P1 & P2 & H1 & H2 & ->).
  apply reshape_lengths.
  apply index_add_length in H1, H2. rewrite H2, H1.
  unfold zeros. by rewrite length_replicate, concat_length_sum.
Qed.

(** X5. For terminal transitions ([done = 1] in every row) the projection does
    not depend on the discount: every atom of a sample is sent to the
    position of the clamped reward. *)
Theorem terminal_projection_ignores_gamma
    (v_min v_max : Qc) (n batch_size : nat) (support : list Qc)
    (dz gamma gamma' : Qc) (reward : list Qc) (next_dist : list (list Qc)) :
  project v_min v_max n batch_size support dz gamma reward
    (replicate (length reward) 1) next_dist
  = project v_min v_max n batch_size support dz gamma' reward
      (replicate (length reward) 1) next_dist
  ∧ zip_with (b_row v_min v_max support dz gamma) reward
      (replicate (length reward) 1)
    = (λ r, replicate (length support) ((clamp v_min v_max r - v_min) / dz))
        <$> reward.
Proof.
  assert (∀ g r, b_row v_min v_max support dz g r 1
                 = replicate (length support)
                     ((clamp v_min v_max r - v_min) / dz)) as Hrow.
  { intros g r. unfold b_row. induction support as [|z s IH]; [done|].
    rewrite fmap_cons, IH. simpl. f_equal.
    by replace (r + (1 - 1) * g * z) with r by ring. }
  assert (∀ g, zip_with (b_row v_min v_max support dz g) reward
                 (replicate (length reward) 1)
               = (λ r, replicate (length support)
                         ((clamp v_min v_max r - v_min) / dz)) <$> reward)
    as Hb.
  { intros g. induction reward as [|r rs IH]; [done|].
    simpl. by rewrite Hrow, IH. }
  split; [|apply Hb].
  unfold project.
  rewrite !zip_strict_pure_Ok by (by rewrite length_replicate).
  by rewrite !Hb.
Qed.

(** ** Losses and priorities *)

(** X6. [_compute_dqn_loss] returns no negative loss when, on the batch, the
    target network gives masses that are not negative and the online
    network gives probabilities whose logarithm is not positive. *)
Theorem compute_dqn_loss_non_negative `{Collaborators} (a : Agent)
    (samples : Samples ndarray) (gamma' : option Qc) (e : list Qc) :
  _compute_dqn_loss a samples gamma' = Ok e →
  (∀ f, distribution (dqn_target a) = Some f →
        non_negative (f (parameters (dqn_target a)) (noise (dqn_target a))
                        (next_obs samples))) →
  (∀ f, distribution (dqn a) = Some f →
        log_non_positive (f (parameters (dqn a)) (noise (dqn a))
                            (obs samples))) →
  Forall (λ l, 0 ≤ l) e.
Proof.
  intros He Ht Ho. by eapply compute_dqn_loss_at_nonneg.
Qed.

(** X7. Under the same conditions on the two networks, on the batch drawn from
    the prioritized store and on its n-step counterpart, and with
    [prior_eps > 0], every priority [update_model] writes back is strictly
    positive. *)
Theorem priorities_strictly_positive `{Collaborators} (a a' : Agent)
    (loss : Qc) :
  update_model a = Ok (a', loss) →
  0 < prior_eps (params a) →
  (∀ f samples,
     distribution (dqn_target a) = Some f →
     samples = sample_batch (memory a) (beta a)
     ∨ samples = sample_batch_from_idxs (memory_n a)
                   (indices (sample_batch (memory a) (beta a))) →
     non_negative (f (parameters (dqn_target a)) (noise (dqn_target a))
                     (next_obs samples))) →
  (∀ f samples,
     distribution (dqn a) = Some f →
     samples = sample_batch (memory a) (beta a)
     ∨ samples = sample_batch_from_idxs (memory_n a)
                   (indices (sample_batch (memory a) (beta a))) →
     log_non_positive (f (parameters (dqn a)) (noise (dqn a))
                         (obs samples))) →
  ∃ new_priorities,
    memory a'
    = update_priorities (memory a)
        (indices (sample_batch (memory a) (beta a))) new_priorities
    ∧ Forall (λ q, 0 < q) new_priorities.
Proof.
  intros Hu Heps Ht Ho.
  apply update_model_Ok in Hu as (l1 & ln & H1 & Hn & _ & _ & _ & _ & Hm).
  eexists. split; [exact Hm|].
  apply Forall_fmap.
  assert (Forall (λ l, 0 ≤ l) l1) as Hl1.
  { eapply compute_dqn_loss_at_nonneg; [exact H1| |];
      intros f Hf; [apply Ht|apply Ho]; by auto. }
  assert (Forall (λ l, 0 ≤ l) ln) as Hln.
  { eapply compute_dqn_loss_at_nonneg; [exact Hn| |];
      intros f Hf; [apply Ht|apply Ho]; by auto. }
  clear -Hl1 Hln Heps. revert ln Hln.
  induction Hl1 as [|x l1 Hx _ IH]; intros [|y ln] Hln; try constructor.
  - apply Forall_cons in Hln as [Hy _]. simpl.
    apply Qcplus_nonneg_pos; [|done]. by apply Qcplus_nonneg_nonneg.
  - apply Forall_cons in Hln as [_ Hln]. by apply IH.
Qed.


(** ** What no call changes *)

Section Invariants.
Context `{Collaborators}.

Lemma set_grads_names (ps : list (string * Param)) gs :
  (set_grads ps gs).*1 = ps.*1.
Proof.
  unfold set_grads. apply list_eq. intros i.
  rewrite !list_lookup_fmap, list_lookup_imap.
  by destruct (ps !! i) as [[name p]|].
Qed.

Lemma set_data_names (ps : list (string * Param)) ds :
  (set_data ps ds).*1 = ps.*1.
Proof.
  unfold set_data. apply list_eq. intros i.
  rewrite !list_lookup_fmap, list_lookup_imap.
  by destruct (ps !! i) as [[name p]|].
Qed.

Lemma soft_update_names (τ : Qc) ws ts ts' :
  soft_update τ ws ts = Ok ts' → ts'.*1 = ts.*1.
Proof.
  revert ts ts'. induction ws as [|w ws IH]; intros [|[n t] ts] ts' Hs;
    simpl in Hs; try (by inversion Hs).
  bind_inv Hs as d Hd. bind_inv Hs as rest Hrest.
  inversion Hs; subst; clear Hs.
  rewrite !fmap_cons. by rewrite (IH _ _ Hrest).
Qed.

Lemma update_model_nets (a a' : Agent) (loss : Qc) :
  update_model a = Ok (a', loss) →
  names (dqn a') = names (dqn a)
  ∧ distribution (dqn a') = distribution (dqn a)
  ∧ noise (dqn a') = noise (dqn a)
  ∧ reset_noise_ (dqn a') = reset_noise_ (dqn a)
  ∧ support a' = support a.
Proof.
  unfold update_model. intros Hu. bind_inv Hu as el Hel. destruct el as [e l].
  destruct (negb _); [discriminate|].
  destruct (step _ _) as [o θ]. inversion Hu; subst; clear Hu.
  unfold names. simpl. by rewrite set_data_names, set_grads_names.
Qed.

Lemma target_update_nets (a a' : Agent) :
  _target_update a = Ok a' →
  names (dqn_target a') = names (dqn_target a)
  ∧ distribution (dqn_target a') = distribution (dqn_target a)
  ∧ noise (dqn_target a') = noise (dqn_target a)
  ∧ reset_noise_ (dqn_target a') = reset_noise_ (dqn_target a)
  ∧ support a' = support a.
Proof.
  unfold _target_update. intros Hu. bind_inv Hu as ps Hps.
  inversion Hu; subst; clear Hu. unfold names. simpl.
  by rewrite (soft_update_names _ _ _ _ Hps).
Qed.

Lemma call_nets (a a' : Agent) :
  call a a' →
  support a' = support a
  ∧ names (dqn a') = names (dqn a)
  ∧ names (dqn_target a') = names (dqn_target a)
  ∧ distribution (dqn a') = distribution (dqn a).
Proof.
  intros [a0 a1 Hu|a0 ? ? ? ? ?|a0 n].
  - apply update_Ok in Hu as [[_ ->]|[_ (a2 & loss & a3 & Hm & Ht & ->)]];
      [done|].
    pose proof (update_model_frame _ _ _ Hm) as (_ & _ & Htgt & _).
    apply update_model_nets in Hm as (Hn & Hd & _ & _ & Hs).
    pose proof (target_update_frame _ _ Ht) as (_ & _ & Hdqn & _).
    apply target_update_nets in Ht as (Hn' & _ & _ & _ & Hs').
    simpl in *. unfold names in *. simpl in *.
    rewrite Hdqn, Hs', Hs, Hn', Htgt. by rewrite Hn, Hd.
  - unfold memorize. by destruct (store_n _ _).
  - unfold metrics. by destruct (decide _).
Qed.
End Invariants.

(** X9. Over any sequence of calls on an agent [__init__] has built, the
    configuration and the support stay as built, both networks keep the
    names (and so the number) of their parameters, and the online network
    keeps its [distribution]: [_compute_dqn_loss] never fails to find it. *)
Theorem configuration_is_invariant `{Collaborators} (p : Params)
    (a0 a : Agent) :
  __init__ p = Ok a0 →
  rtc call a0 a →
  params a = p
  ∧ support a = linspace (v_min p) (v_max p) (atom_size p)
  ∧ names (dqn a) = names (dqn a0)
  ∧ names (dqn_target a) = names (dqn_target a0)
  ∧ is_Some (distribution (dqn a)).
Proof.
  intros Hinit Hrun.
  pose proof (init_Ok _ _ Hinit) as (Hp & _).
  assert (is_Some (distribution (dqn a0))
          ∧ support a0 = linspace (v_min p) (v_max p) (atom_size p))
    as (Hd0 & Hs0).
  { unfold __init__ in Hinit.
    destruct (distribution _) eqn:Hd; [|discriminate].
    bind_inv Hinit as tgt Htgt. inversion Hinit; subst; clear Hinit. simpl.
    rewrite Hd. by eauto. }
  revert a Hrun. apply rtc_ind_r; [done|].
  intros a a' _ Hcall (Hpa & Hsa & Hna & Hnt & Hda).
  pose proof (call_frame _ _ Hcall) as [Hp' _].
  apply call_nets in Hcall as (Hs' & Hn' & Ht' & Hd').
  by rewrite Hp', Hs', Hn', Ht', Hd'.
Qed.

(** ** The direction of the beta schedule *)

(** X10. A call of [update] never raises beta: from a beta that is at least
    [buffer_beta_min] it moves down by [(buffer_beta_max - buffer_beta_min)
    * buffer_beta_decay] when the gate is passed and that stays above the
    floor, and never below the floor. *)
Theorem update_never_raises_beta `{Collaborators} (a a' : Agent) :
  update a = Ok a' →
  let p := params a in
  let step := (buffer_beta_max p - buffer_beta_min p) * buffer_beta_decay p in
  buffer_beta_min p ≤ buffer_beta_max p →
  0 ≤ buffer_beta_decay p →
  buffer_beta_min p ≤ beta a →
  buffer_beta_min p ≤ beta a' ∧ beta a' ≤ beta a
  ∧ ((batch_size p ≤ len (memory a))%nat →
     buffer_beta_min p ≤ beta a - step → beta a' = beta a - step).
Proof.
  intros Hu. cbv zeta. intros Hmm Hdecay Hb.
  pose proof (decrement_nonneg _ Hmm Hdecay) as Hstep.
  apply update_Ok in Hu as [[Hlt ->]|[Hge (a1 & loss & a2 & Hm & Ht & ->)]].
  - split; [done|]. split; [apply Qcle_refl|]. intros Hge. lia.
  - apply update_model_frame in Hm as (Hp & Hb1 & _).
    apply target_update_frame in Ht as (_ & Hb2 & _). simpl in *.
    rewrite Hb2. unfold annealed. rewrite Hp, Hb1.
    split; [apply py_max_ge_l|]. split.
    + apply py_max_le; [done|]. by apply Qc_sub_le.
    + intros _ Hfloor. unfold py_max.
      destruct (Qclt_le_dec _ _) as [Hlt|Hle]; [done|].
      by apply Qcle_antisym.
Qed.

(** ** A grid with a single atom *)

(** X14. With [atom_size = 1] the division of line 171 is by zero: every call of
    [update] that passes the warm-up gate raises [ZeroDivisionError], before
    any network is evaluated and before any state is changed. *)
Theorem single_atom_update_raises `{Collaborators} (a : Agent) :
  atom_size (params a) = 1%nat →
  (batch_size (params a) ≤ len (memory a))%nat →
  update a = Raise ZeroDivisionError
  ∧ update_model a = Raise ZeroDivisionError.
Proof.
  intros Hn Hgate.
  assert (update_model a = Raise ZeroDivisionError) as Hm.
  { unfold update_model, batch_loss, _compute_dqn_loss_at, delta_z.
    rewrite Hn. by destruct (decide (1 = 1)%nat). }
  split; [|done]. unfold update.
  destruct (decide _); [|lia]. by rewrite Hm.
Qed.

(** ** The action [act] selects *)

Lemma argmax_from_spec (q l : list Qc) (best_i i : nat) (best : Qc) :
  q !! best_i = Some best →
  (best_i < i)%nat →
  drop i q = l →
  (∀ j x, (j < i)%nat → q !! j = Some x → x ≤ best) →
  (∀ j x, (j < best_i)%nat → q !! j = Some x → x < best) →
  ∃ m, q !! argmax_from best_i best i l = Some m
       ∧ (∀ j x, q !! j = Some x → x ≤ m)
       ∧ (∀ j x, (j < argmax_from best_i best i l)%nat →
                 q !! j = Some x → x < m).
Proof.
  revert best_i i best. induction l as [|y l IH];
    intros best_i i best Hbest Hlt Hdrop Hle Hfirst.
  - exists best. simpl. split; [done|]. split; [|done].
    intros j x Hj. apply (Hle j); [|done].
    apply lookup_lt_Some in Hj.
    destruct (decide (j < i)%nat) as [|Hge]; [done|].
    assert (length (drop i q) = 0%nat) as Hlen by (by rewrite Hdrop).
    rewrite length_drop in Hlen. lia.
  - assert (q !! i = Some y) as Hy.
    { rewrite <- (Nat.add_0_r i), <- lookup_drop. by rewrite Hdrop. }
    assert (drop (S i) q = l) as Hdrop'.
    { rewrite (drop_S _ _ _ Hy) in Hdrop. by inversion Hdrop. }
    cbn [argmax_from]. destruct (Qclt_le_dec best y) as [Hby|Hyb].
    + apply IH; [done|lia|done| |].
      * intros j x Hj Hx. destruct (decide (j = i)) as [->|Hne].
        -- rewrite Hy in Hx. inversion Hx; subst. apply Qcle_refl.
        -- apply Qcle_trans with best; [|by apply Qclt_le_weak].
           apply (Hle j); [lia|done].
      * intros j x Hj Hx. apply Qcle_lt_trans with best; [|done].
        by apply (Hle j).
    + apply IH; [done|lia|done| |done].
      intros j x Hj Hx. destruct (decide (j = i)) as [->|Hne].
      * rewrite Hy in Hx. by inversion Hx; subst.
      * apply (Hle j); [lia|done].
Qed.

(** X15. [act] is greedy: whenever the online network hands back at least one
    q-value, [act] returns the index of a largest one, and of the first of
    them when several are largest.  There is no exploration in [act]
    itself. *)
Theorem act_is_greedy `{Collaborators} (a : Agent) (state : ndarray) :
  let q_values := act_ (dqn a) (parameters (dqn a)) (noise (dqn a)) state in
  q_values ≠ [] →
  ∃ i m, act a state = Ok i
         ∧ q_values !! i = Some m
         ∧ (∀ j x, q_values !! j = Some x → x ≤ m)
         ∧ (∀ j x, (j < i)%nat → q_values !! j = Some x → x < m).
Proof.
  cbv zeta. unfold act.
  destruct (act_ _ _ _ _) as [|x q] eqn:Hq; [done|]. intros _.
  destruct (argmax_from_spec (x :: q) q 0 1 x) as (m & Hm & Hmax & Hfirst);
    [done|lia|done| |intros; lia|].
  { intros [|j] y Hj Hy; [|lia]. inversion Hy; subst. apply Qcle_refl. }
  by exists (argmax_from 0 x 1 q), m.
Qed.


(** ** What [metrics] reports *)


Section Metrics.
Context `{Collaborators}.



End Metrics.


(** ** The requirements [setup.py] hands to [setup] *)

Lemma requirement_Ok (line : list Ascii.ascii) :
  read_line line →
  ∃ req, requirement line = Ok req
         ∧ (newline ∉ req)
         ∧ (line = req ∨ line = req ++ [newline]).
Proof.
  intros [Hne Hnl]. unfold requirement.
  destruct line as [|c line _] using rev_ind; [done|].
  rewrite last_snoc. rewrite length_app in Hnl |- *. cbn [length] in Hnl |- *.
  replace (length line + 1 - 1)%nat with (length line) in Hnl |- * by lia.
  rewrite take_app_length in Hnl |- *.
  destruct (decide (c = newline)) as [->|Hc].
  - exists line. by auto.
  - exists (line ++ [c]). split; [done|]. split; [|by left].
    rewrite elem_of_app, list_elem_of_singleton.
    intros [Hin|Heq]; [done|by destruct Hc].
Qed.

(** X19. Every line [readlines()] yields becomes one requirement: the line
    without its final newline, or the line itself when it has none (the
    last line of a file that does not end in a newline); no requirement
    holds a newline character. *)
Theorem requirements_are_the_lines_without_newline
    (lines : list (list Ascii.ascii)) :
  Forall read_line lines →
  ∃ reqs,
    requirements lines = Ok reqs
    ∧ Forall (λ req, newline ∉ req) reqs
    ∧ Forall2 (λ line req, line = req ∨ line = req ++ [newline]) lines reqs.
Proof.
  unfold requirements. generalize 0%nat. intros n Hlines. revert n.
  induction Hlines as [|line lines Hline _ IH]; intros n.
  - by exists [].
  - destruct (requirement_Ok _ Hline) as (req & Hreq & Hnl & Hshape).
    destruct (IH (S n)) as (reqs & Hreqs & Hnls & Hshapes).
    exists (req :: reqs). cbn [for_rows]. rewrite Hreq. simpl.
    rewrite Hreqs. simpl. split; [done|]. split; by constructor.
Qed.

(** ** The further properties on the concrete instance *)

Import Cases.

Lemma projection_has_no_negative_entry_witness :
  length <$> [[0; quarter; quarter];
              [Q2Qc (7 # 16); half; Q2Qc (1 # 16)]]
  = length <$> [[quarter; half; quarter]; [half; quarter; quarter]]
  ∧ Forall (Forall (λ m, 0 ≤ m))
      [[0; quarter; quarter]; [Q2Qc (7 # 16); half; Q2Qc (1 # 16)]].
Proof.
  apply (projection_has_no_negative_entry 0 (Q2Qc 2) 3 2
           (linspace 0 (Q2Qc 2) 3) 1 half [1; quarter] [0; 0]
           [[quarter; half; quarter]; [half; quarter; quarter]]).
  - evaluate.
  - repeat constructor; by vm_compute.
Defined.

Lemma fixture_target_masses (f : list (list Qc) → nat → list (list Qc)
                                 → list (list (list Qc)))
    (samples : Samples (list (list Qc))) :
  distribution (dqn_target (filled (fresh 2 half half))) = Some f →
  samples = sample_batch (memory (filled (fresh 2 half half)))
              (beta (filled (fresh 2 half half)))
  ∨ samples = sample_batch_from_idxs (memory_n (filled (fresh 2 half half)))
                (indices (sample_batch (memory (filled (fresh 2 half half)))
                            (beta (filled (fresh 2 half half))))) →
  non_negative
    (f (parameters (dqn_target (filled (fresh 2 half half))))
       (noise (dqn_target (filled (fresh 2 half half)))) (next_obs samples)).
Proof.
  intros Hf Hs. injection Hf as <-.
  destruct Hs as [->| ->]; vm_compute; repeat constructor; discriminate.
Qed.

Lemma fixture_online_logarithms (f : list (list Qc) → nat → list (list Qc)
                                     → list (list (list Qc)))
    (samples : Samples (list (list Qc))) :
  distribution (dqn (filled (fresh 2 half half))) = Some f →
  samples = sample_batch (memory (filled (fresh 2 half half)))
              (beta (filled (fresh 2 half half)))
  ∨ samples = sample_batch_from_idxs (memory_n (filled (fresh 2 half half)))
                (indices (sample_batch (memory (filled (fresh 2 half half)))
                            (beta (filled (fresh 2 half half))))) →
  @log_non_positive world
    (f (parameters (dqn (filled (fresh 2 half half))))
       (noise (dqn (filled (fresh 2 half half)))) (obs samples)).
Proof.
  intros Hf Hs. injection Hf as <-.
  destruct Hs as [->| ->]; vm_compute; repeat constructor; discriminate.
Qed.

Lemma compute_dqn_loss_non_negative_witness :
  Forall (λ l, 0 ≤ l) [Q2Qc (3 # 4); Q2Qc (5 # 8)].
Proof.
  apply (compute_dqn_loss_non_negative (filled (fresh 2 half half))
           (sample_batch (memory (filled (fresh 2 half half)))
              (beta (filled (fresh 2 half half)))) None).
  - evaluate.
  - intros f Hf. apply fixture_target_masses; by auto.
  - intros f Hf. apply fixture_online_logarithms; by auto.
Defined.

Lemma priorities_strictly_positive_witness :
  ∃ new_priorities,
    memory (stepped half half).1
    = update_priorities (memory (filled (fresh 2 half half)))
        (indices (sample_batch (memory (filled (fresh 2 half half)))
                    (beta (filled (fresh 2 half half))))) new_priorities
    ∧ Forall (λ q, 0 < q) new_priorities.
Proof.
  apply (priorities_strictly_positive (filled (fresh 2 half half))
           (stepped half half).1 (stepped half half).2).
  - apply fixture_update_model.
  - by vm_compute.
  - apply fixture_target_masses.
  - apply fixture_online_logarithms.
Defined.

Lemma configuration_is_invariant_witness :
  params (trained half half) = config true 2 half half
  ∧ support (trained half half) = linspace 0 (Q2Qc 2) 3
  ∧ names (dqn (trained half half)) = names (dqn (fresh 2 half half))
  ∧ names (dqn_target (trained half half))
    = names (dqn_target (fresh 2 half half))
  ∧ is_Some (distribution (dqn (trained half half))).
Proof.
  apply (configuration_is_invariant (config true 2 half half)
           (fresh 2 half half)).
  - apply fixture_init.
  - apply fixture_run.
Defined.

Lemma fixture_update_from_above :
  update (set_beta (filled (fresh 2 half half)) half)
  = Ok (returned (fresh 2 half half)
          (update (set_beta (filled (fresh 2 half half)) half))).
Proof. vm_compute. reflexivity. Qed.

Lemma update_never_raises_beta_witness :
  beta (set_beta (filled (fresh 2 half half)) half) = Q2Qc (1 # 2)
  ∧ Q2Qc (1 # 10)
    ≤ beta (returned (fresh 2 half half)
              (update (set_beta (filled (fresh 2 half half)) half)))
  ∧ beta (returned (fresh 2 half half)
            (update (set_beta (filled (fresh 2 half half)) half)))
    ≤ Q2Qc (1 # 2)
  ∧ beta (returned (fresh 2 half half)
            (update (set_beta (filled (fresh 2 half half)) half)))
    = Q2Qc (1 # 2) - (Q2Qc (9 # 10) - Q2Qc (1 # 10)) * Q2Qc (1 # 2000)
  ∧ Q2Qc (1 # 2) - (Q2Qc (9 # 10) - Q2Qc (1 # 10)) * Q2Qc (1 # 2000)
    = Q2Qc (1249 # 2500).
Proof.
  split; [evaluate|].
  destruct (update_never_raises_beta
              (set_beta (filled (fresh 2 half half)) half)
              (returned (fresh 2 half half)
                 (update (set_beta (filled (fresh 2 half half)) half))))
    as (Hlo & Hhi & Hstep).
  - apply fixture_update_from_above.
  - by vm_compute.
  - by vm_compute.
  - by vm_compute.
  - split; [exact Hlo|]. split; [exact Hhi|]. split; [|evaluate].
    apply Hstep.
    + vm_compute. lia.
    + by vm_compute.
Defined.

Lemma single_atom_update_raises_witness :
  update single_atom = Raise ZeroDivisionError
  ∧ update_model single_atom = Raise ZeroDivisionError.
Proof.
  apply single_atom_update_raises.
  - reflexivity.
  - vm_compute. lia.
Defined.

Lemma act_is_greedy_witness :
  ∃ i m, act (fresh 2 half half) [] = Ok i
         ∧ [0; 1] !! i = Some m
         ∧ (∀ j x, [0; 1] !! j = Some x → x ≤ m)
         ∧ (∀ j x, (j < i)%nat → [0; 1] !! j = Some x → x < m).
Proof. apply (act_is_greedy (fresh 2 half half) []). discriminate. Defined.



Lemma requirements_are_the_lines_without_newline_witness :
  ∃ reqs,
    requirements lines = Ok reqs
    ∧ Forall (λ req, newline ∉ req) reqs
    ∧ Forall2 (λ line req, line = req ∨ line = req ++ [newline]) lines reqs.
Proof.
  apply requirements_are_the_lines_without_newline.
  repeat constructor; try discriminate; evaluate.
Defined.
